(** * A playlist gateway: cache, refresh and retry around an upstream API

    Shallow embedding of the Node.js server of this repository.  The file
    embedded is the current revision of the server (the one with the
    [/sports-playlist] route); [server.js] is its earlier revision, whose
    [getChannelM3u], [/playlist] handler and [scheduleDailyRefresh] are
    textually the same.

    Conventions of the embedding.
    - A JavaScript string is a [string] holding its UTF-8 bytes.
    - The documents are typed after the upstream interface:
      [{metas: [{id}]}] for a catalog and
      [{meta: {tvgId, logo, genres, name, streams: [{url}]}}] for a channel.
      A property that may be missing is an [option]: [None] is JavaScript's
      [undefined], which a template literal prints as "undefined".  Where the
      source only tests a value for truth (the document, its [meta], its
      stream list, a stream) [None] stands for [null] as well.
    - The object [cache] and the [Map] [allChannels] are association lists in
      insertion order, which is the order [Object.keys] and [Map.forEach]
      enumerate (every cache key holds an underscore, so none is an integer
      index, and none is a property of [Object.prototype]).
    - Effects are threaded through a [world]: the cache, the trace of upstream
      requests, timer waits and log lines, and the readings of the clock.  The
      upstream service is an oracle that answers a URL given the trace so far.
    - [Promise.all] over the channels, and the un-awaited calls of the refresh
      pass, are run one after the other in array order; [Promise.all] returns
      its results in that order whatever the interleaving. *)

From Stdlib Require Import String Ascii List ZArith Bool Lia Permutation.
From Stdlib Require Import DecimalString.
Import ListNotations.
Local Open Scope string_scope.
Local Open Scope Z_scope.

(** ** Strings, as the built-ins of the language treat them *)

Module JS.

Definition nl : string := String (ascii_of_nat 10) EmptyString.

(** [Array.prototype.join]. *)
Definition join (sep : string) (l : list string) : string :=
  String.concat sep l.

(** [String.prototype.split] with a separator of one character. *)
Fixpoint split (sep : ascii) (s : string) : list string :=
  match s with
  | EmptyString => [EmptyString]
  | String c rest =>
      if Ascii.eqb c sep then EmptyString :: split sep rest
      else match split sep rest with
           | [] => [String c EmptyString]
           | h :: t => String c h :: t
           end
  end.

Definition map_string (f : ascii -> ascii) : string -> string :=
  fix go (s : string) : string :=
    match s with
    | EmptyString => EmptyString
    | String c rest => String (f c) (go rest)
    end.

Definition lower_ascii (c : ascii) : ascii :=
  let n := nat_of_ascii c in
  if (Nat.leb 65 n && Nat.leb n 90)%bool then ascii_of_nat (n + 32) else c.

Definition upper_ascii (c : ascii) : ascii :=
  let n := nat_of_ascii c in
  if (Nat.leb 97 n && Nat.leb n 122)%bool then ascii_of_nat (n - 32) else c.

(** [toLowerCase] and [toUpperCase] on the ASCII letters; the bytes of
    other characters are kept.  No character outside ASCII is lowered to a
    letter of "sports", so the test [genre.toLowerCase() !== 'sports'] of
    the source is decided exactly; [toUpperCase] is only applied to region
    tags, which are ASCII once validated. *)
Definition toLowerCase : string -> string := map_string lower_ascii.
Definition toUpperCase : string -> string := map_string upper_ascii.

(** The white space and line terminators [trim] removes, as UTF-8 byte
    sequences: TAB LF VT FF CR SP, U+00A0, U+1680, U+2000..U+200A, U+2028,
    U+2029, U+202F, U+205F, U+3000 and U+FEFF. *)
Definition white_space : list (list nat) :=
  List.app
    [ [9]; [10]; [11]; [12]; [13]; [32]; [194; 160]; [225; 154; 128] ]%nat
    (List.app
       (map (fun b => [226; 128; b]%nat)
            [128; 129; 130; 131; 132; 133; 134; 135; 136; 137; 138;
             168; 169; 175]%nat)
       [ [226; 129; 159]; [227; 128; 128]; [239; 187; 191] ]%nat).

Fixpoint strip_prefix (p : list nat) (s : string) : option string :=
  match p with
  | [] => Some s
  | b :: p' =>
      match s with
      | String c rest =>
          if Nat.eqb (nat_of_ascii c) b then strip_prefix p' rest else None
      | EmptyString => None
      end
  end.

Fixpoint strip_any (ps : list (list nat)) (s : string) : option string :=
  match ps with
  | [] => None
  | p :: ps' =>
      match strip_prefix p s with
      | Some rest => Some rest
      | None => strip_any ps' s
      end
  end.

Fixpoint strip_all (fuel : nat) (ps : list (list nat)) (s : string) : string :=
  match fuel with
  | O => s
  | S fuel' =>
      match strip_any ps s with
      | Some rest => strip_all fuel' ps rest
      | None => s
      end
  end.

Fixpoint rev_string (acc s : string) : string :=
  match s with
  | EmptyString => acc
  | String c rest => rev_string (String c acc) rest
  end.

Definition trimStart (s : string) : string :=
  strip_all (String.length s) white_space s.

Definition trimEnd (s : string) : string :=
  let r := rev_string EmptyString s in
  rev_string EmptyString
    (strip_all (String.length r) (map (@rev nat) white_space) r).

(** [String.prototype.trim]. *)
Definition trim (s : string) : string := trimEnd (trimStart s).

(** [Array.prototype.includes] on an array of strings. *)
Definition includes (l : list string) (x : string) : bool :=
  existsb (String.eqb x) l.

(** [String(x)] for a value that is a string or [undefined]: what a template
    literal prints. *)
Definition show (x : option string) : string :=
  match x with
  | Some s => s
  | None => "undefined"
  end.

(** Truthiness of a value that is a string or [undefined]. *)
Definition truthy (x : option string) : bool :=
  match x with
  | Some s => negb (String.eqb s "")
  | None => false
  end.

(** [String(n)] for an integer. *)
Definition show_int (n : Z) : string :=
  NilZero.string_of_int (Z.to_int n).

End JS.

(** ** Ordered maps: a JS object used as a dictionary, and [Map] *)

Section OrderedMap.

Context {K V : Type} (eqb : K -> K -> bool).

Fixpoint om_get (k : K) (m : list (K * V)) : option V :=
  match m with
  | [] => None
  | (k', v) :: rest => if eqb k k' then Some v else om_get k rest
  end.

(** Assignment: an existing key keeps its place, a new key goes last. *)
Fixpoint om_set (k : K) (v : V) (m : list (K * V)) : list (K * V) :=
  match m with
  | [] => [(k, v)]
  | (k', v') :: rest =>
      if eqb k k' then (k, v) :: rest else (k', v') :: om_set k v rest
  end.

Definition om_has (k : K) (m : list (K * V)) : bool :=
  match om_get k m with
  | Some _ => true
  | None => false
  end.

Definition om_keys (m : list (K * V)) : list K := map fst m.
Definition om_values (m : list (K * V)) : list V := map snd m.

End OrderedMap.

(** ** Data model *)

Module Stream.
Record t : Type := { url : option string }.
End Stream.

(** The [meta] object of a channel document.  [genres] and [streams] may be
    missing; an element of [streams] may be [null]. *)
Module Meta.
Record t : Type := {
  tvgId : option string;
  logo : option string;
  genres : option (list string);
  name : option string;
  streams : option (list (option Stream.t))
}.
End Meta.

(** What [response.json()] gives for a channel: an object that may hold a
    [meta] property. *)
Record channel_doc : Type := { meta : option Meta.t }.

(** A channel of the catalog, and the catalog of a region. *)
Record channel_stub : Type := { id : string }.
Record catalog : Type := { metas : list channel_stub }.

(** The value kept in [allChannels] by the multi-region build. *)
Module Channel.
Record t : Type := {
  tvgId : option string;
  logo : option string;
  genre : string;
  name : string;
  url : option string;
  region : string
}.
End Channel.

(** An entry of the cache: [{ m3u, timestamp }]. *)
Record entry : Type := { m3u : string; timestamp : Z }.

Definition CACHE_DURATION : Z := 24 * 60 * 60 * 1000.

Definition validRegions : list string :=
  ["usa"; "ca"; "mx"; "uk"; "au"; "cl"; "fr"; "it"; "za"; "nz"; "ee"].

(** ** The world: cache, effects and the upstream oracle *)

Inductive event : Type :=
| EvFetch (url : string)
| EvDelay (ms : Z)
| EvLog (msg : string).

(** A completion: a value, or an exception with its [message]. *)
Inductive result (A : Type) : Type :=
| Ok (a : A)
| Thrown (message : string).
Arguments Ok {A} a.
Arguments Thrown {A} message.

(** The response object of [fetch]; [json] fails when the body does not
    parse to a document of the expected shape. *)
Record response (A : Type) : Type := {
  ok : bool;
  status : Z;
  statusText : string;
  text : string;
  json : result A
}.
Arguments ok {A} r.
Arguments status {A} r.
Arguments statusText {A} r.
Arguments text {A} r.
Arguments json {A} r.

(** [trace] is newest first.  [clock] gives the successive readings of
    [Date.now()], [ticks] counts the readings taken.  The two oracles answer
    a GET at a URL after the given trace; [Thrown] is a network failure, on
    which [fetch] rejects. *)
Record world : Type := {
  cache : list (string * entry);
  trace : list event;
  ticks : nat;
  clock : nat -> Z;
  catalog_upstream : list event -> string -> result (response catalog);
  meta_upstream : list event -> string -> result (response (option channel_doc))
}.

Definition with_cache (c : list (string * entry)) (w : world) : world :=
  {| cache := c; trace := trace w; ticks := ticks w; clock := clock w;
     catalog_upstream := catalog_upstream w; meta_upstream := meta_upstream w |}.

Definition with_trace (t : list event) (w : world) : world :=
  {| cache := cache w; trace := t; ticks := ticks w; clock := clock w;
     catalog_upstream := catalog_upstream w; meta_upstream := meta_upstream w |}.

Definition with_ticks (n : nat) (w : world) : world :=
  {| cache := cache w; trace := trace w; ticks := n; clock := clock w;
     catalog_upstream := catalog_upstream w; meta_upstream := meta_upstream w |}.

(** The monad of asynchronous code: state passing with exceptions. *)
Definition M (A : Type) : Type := world -> result A * world.

Definition ret {A : Type} (a : A) : M A := fun w => (Ok a, w).

Definition throw {A : Type} (message : string) : M A :=
  fun w => (Thrown message, w).

Definition bind {A B : Type} (m : M A) (k : A -> M B) : M B :=
  fun w =>
    match m w with
    | (Ok a, w') => k a w'
    | (Thrown e, w') => (Thrown e, w')
    end.

(** [try { body } catch (err) { handler(err.message) }]. *)
Definition try_catch {A : Type} (body : M A) (handler : string -> M A) : M A :=
  fun w =>
    match body w with
    | (Ok a, w') => (Ok a, w')
    | (Thrown e, w') => handler e w'
    end.

Definition lift {A : Type} (r : result A) : M A := fun w => (r, w).

Declare Scope js_scope.
Delimit Scope js_scope with js.
Notation "x <- m ;; k" := (bind m (fun x => k))
  (at level 61, m at next level, right associativity) : js_scope.
Notation "m ;;; k" := (bind m (fun _ => k))
  (at level 61, right associativity) : js_scope.
Local Open Scope js_scope.

Fixpoint mapM {A B : Type} (f : A -> M B) (l : list A) : M (list B) :=
  match l with
  | [] => ret []
  | x :: rest =>
      y <- f x ;;
      ys <- mapM f rest ;;
      ret (y :: ys)
  end.

Fixpoint forM_ {A : Type} (f : A -> M unit) (l : list A) : M unit :=
  match l with
  | [] => ret tt
  | x :: rest => f x ;;; forM_ f rest
  end.

(** [log]: the line goes to the log file and the console; the trace keeps the
    message, without the time stamp put before it. *)
Definition log (msg : string) : M unit :=
  fun w => (Ok tt, with_trace (EvLog msg :: trace w) w).

Definition delay (ms : Z) : M unit :=
  fun w => (Ok tt, with_trace (EvDelay ms :: trace w) w).

Definition Date_now : M Z :=
  fun w => (Ok (clock w (ticks w)), with_ticks (S (ticks w)) w).

Definition fetch_catalog (url : string) : M (response catalog) :=
  fun w =>
    (catalog_upstream w (trace w) url, with_trace (EvFetch url :: trace w) w).

Definition fetch_meta (url : string) : M (response (option channel_doc)) :=
  fun w =>
    (meta_upstream w (trace w) url, with_trace (EvFetch url :: trace w) w).

Definition cache_get (key : string) : M (option entry) :=
  fun w => (Ok (om_get String.eqb key (cache w)), w).

Definition cache_put (key : string) (e : entry) : M unit :=
  fun w => (Ok tt, with_cache (om_set String.eqb key e (cache w)) w).

(** ** Upstream client *)

Definition base : string := "https://tv-addon.debridio.com/".

Definition meta_url (apikey channelId : string) : string :=
  base ++ apikey ++ "/meta/tv/" ++ channelId.

Definition catalog_url (apikey region : string) : string :=
  base ++ apikey ++ "/catalog/tv/" ++ region ++ ".json".

(** One turn of the loop of [getChannelM3u], the [try] with its [catch]:
    [Some doc] when the turn returns [doc] from the function, [None] when the
    loop goes on. *)
Definition attempt_fetch (channelId apikey : string) (retries attempt : Z)
  : M (option (option channel_doc)) :=
  try_catch
    (response <- fetch_meta (meta_url apikey channelId) ;;
     (if negb (ok response)
      then throw ("HTTP " ++ JS.show_int (status response))
      else ret tt) ;;;
     doc <- lift (json response) ;;
     ret (Some doc))
    (fun message =>
       log ("Channel " ++ channelId ++ " fetch failed (attempt "
            ++ JS.show_int attempt ++ "/" ++ JS.show_int retries
            ++ "): " ++ message) ;;;
       (if attempt <? retries then delay (500 * attempt) else ret tt) ;;;
       ret None).

(** The loop [for (let attempt = 1; attempt <= retries; attempt++)] and the
    [return null] after it; [fuel] bounds the turns left. *)
Fixpoint getChannelM3u_loop (fuel : nat) (channelId apikey : string)
    (retries attempt : Z) : M (option channel_doc) :=
  match fuel with
  | O => ret None
  | S fuel' =>
      if attempt <=? retries then
        r <- attempt_fetch channelId apikey retries attempt ;;
        match r with
        | Some doc => ret doc
        | None =>
            getChannelM3u_loop fuel' channelId apikey retries (attempt + 1)
        end
      else ret None
  end.

(** [getChannelM3u(channelId, apikey, retries = 3)]: the loop starts at
    attempt 1 and runs at most [retries] times. *)
Definition getChannelM3u (channelId apikey : string) (retries : Z)
  : M (option channel_doc) :=
  getChannelM3u_loop (Z.to_nat retries) channelId apikey retries 1.

(** ** Playlist builder *)

Definition dq : string := String (ascii_of_nat 34) EmptyString.

(** The two lines of an entry: the directive and, after a line feed, the
    stream URL. *)
Definition extinf (tvgId logo : option string) (genre name : string)
    (url : option string) : string :=
  "#EXTINF:-1 tvg-id=" ++ dq ++ JS.show tvgId ++ dq
  ++ " tvg-logo=" ++ dq ++ JS.show logo ++ dq
  ++ " group-title=" ++ dq ++ genre ++ dq ++ "," ++ name
  ++ JS.nl ++ JS.show url.

(** The guard [!m3u || !m3u.meta || !m3u.meta.streams || !m3u.meta.streams[0]]:
    when it lets the channel through, its [meta] and first stream. *)
Definition first_stream (m3u : option channel_doc)
  : option (Meta.t * Stream.t) :=
  match m3u with
  | None => None
  | Some doc =>
      match meta doc with
      | None => None
      | Some mt =>
          match Meta.streams mt with
          | None => None
          | Some ss =>
              match nth_error ss 0 with
              | Some (Some s0) => Some (mt, s0)
              | _ => None
              end
          end
      end
  end.

(** [m3u.meta.genres?.[0] || '']. *)
Definition primary_genre (mt : Meta.t) : string :=
  match Meta.genres mt with
  | None => ""
  | Some gs =>
      match nth_error gs 0 with
      | Some g => if JS.truthy (Some g) then g else ""
      | None => ""
      end
  end.

Definition is_sports (genre : string) : bool :=
  String.eqb (JS.toLowerCase genre) "sports".

(** The body of [results.forEach] in [buildM3U]. *)
Definition push_channel (filterSports : bool) (m3uEntries : list string)
    (m3u : option channel_doc) : list string :=
  match first_stream m3u with
  | None => m3uEntries
  | Some (mt, s0) =>
      let genre := primary_genre mt in
      if filterSports && negb (is_sports genre) then m3uEntries
      else (m3uEntries
              ++ [extinf (Meta.tvgId mt) (Meta.logo mt) genre
                         (JS.show (Meta.name mt)) (Stream.url s0)])%list
  end.

Definition m3uEntries_of (filterSports : bool)
    (results : list (option channel_doc)) : list string :=
  fold_left (push_channel filterSports) results ["#EXTM3U"].

Definition buildM3U (c : catalog) (apikey : string) (filterSports : bool)
  : M string :=
  results <- mapM (fun ch => getChannelM3u (id ch) apikey 3) (metas c) ;;
  ret (JS.join JS.nl (m3uEntries_of filterSports results)).

Definition sports_suffix (sportsOnly : bool) : string :=
  if sportsOnly then " (sports only)" else "".

Definition fetchAndCache (apikey region : string) (sportsOnly : bool)
  : M unit :=
  log ("Refreshing playlist for " ++ region ++ sports_suffix sportsOnly
       ++ "...") ;;;
  try_catch
    (catalogRes <- fetch_catalog (catalog_url apikey region) ;;
     (if negb (ok catalogRes)
      then throw ("Failed to fetch catalog: "
                  ++ JS.show_int (status catalogRes) ++ " "
                  ++ statusText catalogRes ++ " - " ++ text catalogRes)
      else ret tt) ;;;
     catalogData <- lift (json catalogRes) ;;
     playlist <- buildM3U catalogData apikey sportsOnly ;;
     let cacheKey :=
       if sportsOnly then apikey ++ "_" ++ region ++ "_sports"
       else apikey ++ "_" ++ region in
     now <- Date_now ;;
     cache_put cacheKey {| m3u := playlist; timestamp := now |} ;;;
     log ("Playlist for " ++ region ++ sports_suffix sportsOnly
          ++ " updated successfully."))
    (fun message => log ("Error refreshing " ++ region ++ ": " ++ message)).

(** Keys of [allChannels]: a [tvgId], which may be [undefined]. *)
Definition id_eqb (a b : option string) : bool :=
  match a, b with
  | Some x, Some y => String.eqb x y
  | None, None => true
  | _, _ => false
  end.

Definition preferred : string := "usa".

(** The body of [results.forEach] in [buildMultiRegionSportsM3U]. *)
Definition merge_channel (region : string)
    (allChannels : list (option string * Channel.t))
    (m3u : option channel_doc) : list (option string * Channel.t) :=
  match first_stream m3u with
  | None => allChannels
  | Some (mt, s0) =>
      let genre := primary_genre mt in
      if negb (is_sports genre) then allChannels
      else
        let channelId := Meta.tvgId mt in
        let channelName :=
          JS.show (Meta.name mt) ++ " (" ++ JS.toUpperCase region ++ ")" in
        if negb (om_has id_eqb channelId allChannels)
           || String.eqb region preferred
        then om_set id_eqb channelId
               {| Channel.tvgId := Meta.tvgId mt;
                  Channel.logo := Meta.logo mt;
                  Channel.genre := genre;
                  Channel.name := channelName;
                  Channel.url := Stream.url s0;
                  Channel.region := region |}
               allChannels
        else allChannels
  end.

(** One turn of [for (const region of regions)]: the map after the region.
    Nothing is put in the map before the results of the region are in, so a
    failure leaves the map as it was. *)
Definition merge_region (apikey region : string)
    (allChannels : list (option string * Channel.t))
  : M (list (option string * Channel.t)) :=
  try_catch
    (log ("Fetching sports channels for " ++ region ++ "...") ;;;
     catalogRes <- fetch_catalog (catalog_url apikey region) ;;
     if negb (ok catalogRes)
     then
       log ("Failed to fetch catalog for " ++ region ++ ": "
            ++ JS.show_int (status catalogRes)) ;;;
       ret allChannels
     else
       catalogData <- lift (json catalogRes) ;;
       results <- mapM (fun ch => getChannelM3u (id ch) apikey 3)
                       (metas catalogData) ;;
       ret (fold_left (merge_channel region) results allChannels))
    (fun message =>
       log ("Error processing region " ++ region ++ ": " ++ message) ;;;
       ret allChannels).

Fixpoint merge_regions (apikey : string) (regions : list string)
    (allChannels : list (option string * Channel.t))
  : M (list (option string * Channel.t)) :=
  match regions with
  | [] => ret allChannels
  | region :: rest =>
      allChannels' <- merge_region apikey region allChannels ;;
      merge_regions apikey rest allChannels'
  end.

Definition channel_line (channel : Channel.t) : string :=
  extinf (Channel.tvgId channel) (Channel.logo channel)
         (Channel.genre channel) (Channel.name channel)
         (Channel.url channel).

Definition render_channels (allChannels : list (option string * Channel.t))
  : string :=
  JS.join JS.nl
    (fold_left (fun m3uEntries channel =>
                  (m3uEntries ++ [channel_line channel])%list)
               (om_values allChannels) ["#EXTM3U"]).

Definition buildMultiRegionSportsM3U (apikey : string) (regions : list string)
  : M string :=
  allChannels <- merge_regions apikey regions [] ;;
  ret (render_channels allChannels).

(** ** Request handlers *)

Module Query.
Record t : Type := {
  apikey : option string;
  region : option string;
  regions : option string;
  refresh : option string
}.
End Query.

(** What the handler sends: [type] is [None] when the handler leaves the
    content type to the framework. *)
Record http_response : Type := {
  code : Z;
  type : option string;
  body : string
}.

Definition send_status (c : Z) (b : string) : http_response :=
  {| code := c; type := None; body := b |}.

Definition send_plain (b : string) : http_response :=
  {| code := 200; type := Some "text/plain"; body := b |}.

(** [!refresh && cache[cacheKey] && (now - cache[cacheKey].timestamp < CACHE_DURATION)] *)
Definition fresh_hit (refresh : option string) (hit : option entry) (now : Z)
  : option entry :=
  if negb (JS.truthy refresh) then
    match hit with
    | Some e => if now - timestamp e <? CACHE_DURATION then Some e else None
    | None => None
    end
  else None.

Definition valid_region (region : option string) : bool :=
  match region with
  | Some r => JS.includes validRegions r
  | None => false
  end.

(** [app.get("/playlist", ...)] *)
Definition playlist (q : Query.t) : M http_response :=
  let apikey := Query.apikey q in
  let region := Query.region q in
  let refresh := Query.refresh q in
  if negb (JS.truthy apikey) || negb (JS.truthy region)
     || negb (valid_region region)
  then ret (send_status 400
              ("Error: Missing or invalid parameters. Valid regions: "
               ++ JS.join ", " validRegions))
  else
    let cacheKey := JS.show apikey ++ "_" ++ JS.show region in
    now <- Date_now ;;
    hit <- cache_get cacheKey ;;
    match fresh_hit refresh hit now with
    | Some e => ret (send_plain (m3u e))
    | None =>
        fetchAndCache (JS.show apikey) (JS.show region) false ;;;
        stored <- cache_get cacheKey ;;
        match stored with
        | Some e => ret (send_plain (m3u e))
        | None => ret (send_status 500 "Unable to generate playlist")
        end
    end.

(** [regions.split(',').map(r => r.trim()).filter(r => validRegions.includes(r))] *)
Definition parse_regions (regions : string) : list string :=
  filter (JS.includes validRegions) (map JS.trim (JS.split "," regions)).

(** The region list of [/sports-playlist], or the response sent when no
    token of [regions] is valid. *)
Definition sports_regions (regions : option string)
  : http_response + list string :=
  if JS.truthy regions then
    let regionList := parse_regions (JS.show regions) in
    if Nat.eqb (length regionList) 0
    then inl (send_status 400
                ("Error: No valid regions provided. Valid regions: "
                 ++ JS.join ", " validRegions))
    else inr regionList
  else inr [preferred].

(** The handler of [/sports-playlist] once the region list is known: the cache
    look-up, the build and the answer. *)
Definition serve_sports (apikey refresh : option string)
    (regionList : list string) : M http_response :=
  let cacheKey := JS.show apikey ++ "_sports_" ++ JS.join "_" regionList in
  now <- Date_now ;;
  hit <- cache_get cacheKey ;;
  match fresh_hit refresh hit now with
  | Some e => ret (send_plain (m3u e))
  | None =>
      try_catch
        (log ("Generating sports playlist for regions: "
              ++ JS.join ", " regionList) ;;;
         sportsM3u <- buildMultiRegionSportsM3U (JS.show apikey) regionList ;;
         cache_put cacheKey {| m3u := sportsM3u; timestamp := now |} ;;;
         ret (send_plain sportsM3u))
        (fun message =>
           log ("Error generating sports playlist: " ++ message) ;;;
           ret (send_status 500 "Unable to generate sports playlist"))
  end.

(** [app.get("/sports-playlist", ...)] *)
Definition sports_playlist (q : Query.t) : M http_response :=
  let apikey := Query.apikey q in
  let refresh := Query.refresh q in
  if negb (JS.truthy apikey)
  then ret (send_status 400 "Error: Missing apikey parameter")
  else
    match sports_regions (Query.regions q) with
    | inl bad_request => ret bad_request
    | inr regionList => serve_sports apikey refresh regionList
    end.

(** ** Refresh scheduler *)

(** The callback of [Object.keys(cache).forEach]:
    [const [apikey, region] = key.split("_"); fetchAndCache(apikey, region)]. *)
Definition refresh_key (key : string) : M unit :=
  let parts := JS.split "_" key in
  let apikey := nth_error parts 0 in
  let region := nth_error parts 1 in
  fetchAndCache (JS.show apikey) (JS.show region) false.

(** One pass of the daily refresh, as the timers of [scheduleDailyRefresh]
    run it: [first] tells the pass of [setTimeout] from those of
    [setInterval], which differ by their log line.  The keys are listed
    before any of them is refreshed. *)
Definition refreshPass (first : bool) : M unit :=
  log (if first then "Starting daily playlist refresh..."
       else "Running daily playlist refresh...") ;;;
  keys <- (fun w => (Ok (om_keys (cache w)), w)) ;;
  forM_ refresh_key keys.

(** ** Notions used in the statements *)

(** [w'] is [w] after the events [evs] (newest first): nothing but the trace
    has changed. *)
Definition after (evs : list event) (w : world) : world :=
  with_trace (evs ++ trace w)%list w.

Definition is_log (e : event) : bool :=
  match e with
  | EvLog _ => true
  | _ => false
  end.

(** The requests and waits of a run, oldest first. *)
Definition schedule (evs : list event) : list event :=
  filter (fun e => negb (is_log e)) evs.

(** The number of lines logged. *)
Definition logged (evs : list event) : nat :=
  length (filter is_log evs).

(** What an attempt gets from an answer of the upstream: the document, or
    the error caught (a network failure, a status that is not a success, a
    body that does not parse). *)
Definition attempt_answer {A : Type} (a : result (response A)) : result A :=
  match a with
  | Thrown message => Thrown message
  | Ok r =>
      if ok r then json r else Thrown ("HTTP " ++ JS.show_int (status r))
  end.

Definition answer_fails {A : Type} (a : result (response A)) : bool :=
  match attempt_answer a with
  | Ok _ => false
  | Thrown _ => true
  end.

Definition failed_line (channelId : string) (retries attempt : Z)
    (message : string) : event :=
  EvLog ("Channel " ++ channelId ++ " fetch failed (attempt "
         ++ JS.show_int attempt ++ "/" ++ JS.show_int retries
         ++ "): " ++ message).

(** The first line [fetchAndCache] logs, and the key it stores under. *)
Definition refreshing_line (region : string) (sportsOnly : bool) : event :=
  EvLog ("Refreshing playlist for " ++ region ++ sports_suffix sportsOnly
         ++ "...").

Definition key_of (apikey region : string) (sportsOnly : bool) : string :=
  if sportsOnly then apikey ++ "_" ++ region ++ "_sports"
  else apikey ++ "_" ++ region.

(** The cache holds an entry under the key. *)
Definition holds_key (key : string) (w : world) : Prop :=
  exists e, om_get String.eqb key (cache w) = Some e.

(** Complete metadata: the document holds a [meta] whose stream list has a
    first entry.  Incomplete: the fetch gave nothing, or the document has no
    [meta], no stream list, an empty one, or one whose first entry is
    [null]. *)
Inductive complete : option channel_doc -> Meta.t -> Stream.t -> Prop :=
| complete_intro (mt : Meta.t) (s : Stream.t) (rest : list (option Stream.t)) :
    Meta.streams mt = Some (Some s :: rest) ->
    complete (Some {| meta := Some mt |}) mt s.

Inductive incomplete : option channel_doc -> Prop :=
| incomplete_absent : incomplete None
| incomplete_no_meta : incomplete (Some {| meta := None |})
| incomplete_no_streams (mt : Meta.t) :
    Meta.streams mt = None -> incomplete (Some {| meta := Some mt |})
| incomplete_empty_streams (mt : Meta.t) :
    Meta.streams mt = Some [] -> incomplete (Some {| meta := Some mt |})
| incomplete_first_stream (mt : Meta.t) (rest : list (option Stream.t)) :
    Meta.streams mt = Some (None :: rest) ->
    incomplete (Some {| meta := Some mt |}).

Definition entry_of (mt : Meta.t) (s : Stream.t) : string :=
  extinf (Meta.tvgId mt) (Meta.logo mt) (primary_genre mt)
         (JS.show (Meta.name mt)) (Stream.url s).

(** The entries of a playlist built from the results of the catalog's
    channels: one for each complete result, in order. *)
Inductive playlist_of : list (option channel_doc) -> list string -> Prop :=
| playlist_nil : playlist_of [] []
| playlist_entry (r : option channel_doc) (mt : Meta.t) (s : Stream.t)
    (rs : list (option channel_doc)) (lines : list string) :
    complete r mt s -> playlist_of rs lines ->
    playlist_of (r :: rs) (entry_of mt s :: lines)
| playlist_skip (r : option channel_doc) (rs : list (option channel_doc))
    (lines : list string) :
    incomplete r -> playlist_of rs lines -> playlist_of (r :: rs) lines.

(** Equality of genres without regard to case. *)
Definition same_genre (a b : string) : Prop :=
  JS.toLowerCase a = JS.toLowerCase b.

Definition all_sports (allChannels : list (option string * Channel.t)) : Prop :=
  Forall (fun kv => same_genre (Channel.genre (snd kv)) "sports") allChannels.

(** The results of the regions of a multi-region build, in the order the
    regions were visited, and the map they merge to. *)
Definition merge_runs (runs : list (string * list (option channel_doc)))
    (allChannels : list (option string * Channel.t))
  : list (option string * Channel.t) :=
  fold_left (fun acc run => fold_left (merge_channel (fst run)) (snd run) acc)
            runs allChannels.

(** The entry a region holds for a complete channel. *)
Definition channel_of (region : string) (mt : Meta.t) (s : Stream.t)
  : Channel.t :=
  {| Channel.tvgId := Meta.tvgId mt;
     Channel.logo := Meta.logo mt;
     Channel.genre := primary_genre mt;
     Channel.name :=
       JS.show (Meta.name mt) ++ " (" ++ JS.toUpperCase region ++ ")";
     Channel.url := Stream.url s;
     Channel.region := region |}.

(** What a result of a region offers to the merge: the entry of a complete
    sports channel. *)
Definition offer (region : string) (r : option channel_doc)
  : option Channel.t :=
  match first_stream r with
  | Some (mt, s) =>
      if is_sports (primary_genre mt) then Some (channel_of region mt s)
      else None
  | None => None
  end.





(** The body of the 400 response of [/playlist]. *)
Definition invalid_parameters : string :=
  "Error: Missing or invalid parameters. Valid regions: "
  ++ "usa, ca, mx, uk, au, cl, fr, it, za, nz, ee".

(** The body of the 400 response of [/sports-playlist] to a region list
    without a valid region. *)
Definition no_valid_regions : string :=
  "Error: No valid regions provided. Valid regions: "
  ++ "usa, ca, mx, uk, au, cl, fr, it, za, nz, ee".

(** The characters of a string hold no [c]. *)
Definition free_of (c : ascii) (s : string) : Prop :=
  ~ In c (list_ascii_of_string s).

(** ** Sample documents and worlds *)

Definition ok_response {A : Type} (a : A) : response A :=
  {| ok := true; status := 200; statusText := "OK"; text := "";
     json := Ok a |}.

Definition error_response {A : Type} (st : Z) (stText body : string)
  : response A :=
  {| ok := false; status := st; statusText := stText; text := body;
     json := Thrown "Unexpected token" |}.

Definition doc_of (tvg name genre url : string) : channel_doc :=
  {| meta := Some {| Meta.tvgId := Some tvg; Meta.logo := Some "logo.png";
                     Meta.genres := Some [genre]; Meta.name := Some name;
                     Meta.streams := Some [Some {| Stream.url := Some url |}]
                  |} |}.

(** [{meta: {name: "News1", streams: [{url: "http://x/1"}], genres: ["News"]}}] *)
Definition news1 : channel_doc :=
  {| meta := Some {| Meta.tvgId := None; Meta.logo := None;
                     Meta.genres := Some ["News"]; Meta.name := Some "News1";
                     Meta.streams :=
                       Some [Some {| Stream.url := Some "http://x/1" |}] |} |}.

(** An upstream given by two tables from URLs to answers; a URL outside the
    tables answers 404. *)
Definition lookup_url {A : Type} (table : list (string * result (response A)))
    (url : string) : result (response A) :=
  match om_get String.eqb url table with
  | Some r => r
  | None => Ok (error_response 404 "Not Found" "no such document")
  end.

Definition world_of (c : list (string * entry))
    (catalogs : list (string * result (response catalog)))
    (metas_ : list (string * result (response (option channel_doc))))
  : world :=
  {| cache := c; trace := []; ticks := O;
     clock := fun n => 1000 * Z.of_nat n;
     catalog_upstream := fun _ => lookup_url catalogs;
     meta_upstream := fun _ => lookup_url metas_ |}.

Definition query_of (apikey region regions refresh : option string)
  : Query.t :=
  {| Query.apikey := apikey; Query.region := region;
     Query.regions := regions; Query.refresh := refresh |}.

(** The catalog of [usa] lists [c1] and [c2]; [c1] resolves to [news1], every
    request for [c2] fails. *)
Definition world_c1_c2 : world :=
  world_of []
    [(catalog_url "k" "usa",
      Ok (ok_response {| metas := [ {| id := "c1" |}; {| id := "c2" |} ] |}))]
    [(meta_url "k" "c1", Ok (ok_response (Some news1)));
     (meta_url "k" "c2", Ok (error_response 503 "Service Unavailable" ""))].

(** The catalog of [usa] lists [c2] alone, and every request for [c2]
    fails. *)
Definition world_c2 : world :=
  world_of []
    [(catalog_url "k" "usa",
      Ok (ok_response {| metas := [ {| id := "c2" |} ] |}))]
    [].

(** A world whose cache holds a playlist for [k_usa] stored at time 0 and
    whose upstream answers 404 to every request. *)
Definition stale_entry : entry := {| m3u := "#EXTM3U"; timestamp := 0 |}.

Definition world_down : world := world_of [("k_usa", stale_entry)] [] [].

(** A world whose cache holds [k_usa], read at time 1000. *)
Definition world_fresh : world :=
  {| cache := [("k_usa", stale_entry)]; trace := []; ticks := O;
     clock := fun n => 1000 + Z.of_nat n;
     catalog_upstream := fun _ => lookup_url [];
     meta_upstream := fun _ => lookup_url [] |}.



(** [GET /sports-playlist?apikey=k&regions=]: the parameter is there, and
    empty. *)
Definition query_empty_regions : Query.t :=
  query_of (Some "k") None (Some "") None.

(** [GET /sports-playlist?apikey=&regions=usa]: the apikey is there, and
    empty. *)
Definition query_empty_apikey : Query.t :=
  query_of (Some "") None (Some "usa") None.

(** A world with an empty cache whose upstream knows the region [usa], with
    the one sports channel [espn]. *)
Definition world_usa : world :=
  world_of []
    [(catalog_url "k" "usa",
      Ok (ok_response {| metas := [ {| id := "espn" |} ] |}))]
    [(meta_url "k" "espn",
      Ok (ok_response
            (Some (doc_of "espn" "ESPN" "Sports" "http://usa/espn"))))].

(** The world left by [GET /sports-playlist?apikey=k] on [world_usa]: the
    cache holds the playlist of the sports channels of [usa] under
    [k_sports_usa]. *)
Definition world_after_sports : world :=
  snd (sports_playlist (query_of (Some "k") None None None) world_usa).

(** The same, when the upstream also answers a catalog at the place of a
    region named [sports]. *)
Definition world_usa_sports : world :=
  world_of []
    [(catalog_url "k" "usa",
      Ok (ok_response {| metas := [ {| id := "espn" |} ] |}));
     (catalog_url "k" "sports",
      Ok (ok_response {| metas := [ {| id := "c1" |} ] |}))]
    [(meta_url "k" "espn",
      Ok (ok_response
            (Some (doc_of "espn" "ESPN" "Sports" "http://usa/espn"))));
     (meta_url "k" "c1", Ok (ok_response (Some news1)))].

Definition world_after_sports' : world :=
  snd (sports_playlist (query_of (Some "k") None None None) world_usa_sports).

(** ** Further notions: counting requests and waits *)

Definition is_fetch (e : event) : bool :=
  match e with
  | EvFetch _ => true
  | _ => false
  end.

(** The number of requests sent upstream in a run. *)
Definition requests (evs : list event) : nat :=
  length (filter is_fetch evs).

(** The time waited on timers in a run, in milliseconds. *)
Definition waited (evs : list event) : Z :=
  fold_right (fun e acc =>
                match e with
                | EvDelay ms => ms + acc
                | _ => acc
                end) 0 evs.

(** [l1] is [l2] with some of its elements left out, the order kept. *)
Inductive subseq {A : Type} : list A -> list A -> Prop :=
| subseq_nil : subseq [] []
| subseq_keep (x : A) (l1 l2 : list A) :
    subseq l1 l2 -> subseq (x :: l1) (x :: l2)
| subseq_drop (x : A) (l1 l2 : list A) :
    subseq l1 l2 -> subseq l1 (x :: l2).

(** All that the results of the regions offer to the merge, in the order met,
    and the ids of a list in the order they are first seen. *)
Definition offers (runs : list (string * list (option channel_doc)))
  : list Channel.t :=
  flat_map
    (fun run =>
       flat_map
         (fun r =>
            match offer (fst run) r with
            | Some ch => [ch]
            | None => []
            end)
         (snd run))
    runs.

Definition see (seen : list (option string)) (k : option string)
  : list (option string) :=
  if existsb (id_eqb k) seen then seen else (seen ++ [k])%list.

Definition first_seen (ids : list (option string)) : list (option string) :=
  fold_left see ids [].

(** The first line a turn of the multi-region loop logs. *)
Definition fetching_line (region : string) : event :=
  EvLog ("Fetching sports channels for " ++ region ++ "...").

(** The key of [/sports-playlist] for an apikey and a region list. *)
Definition sports_key (apikey : string) (regionList : list string) : string :=
  apikey ++ "_sports_" ++ JS.join "_" regionList.

(** A world whose cache holds an earlier sports playlist for [usa] and whose
    upstream answers 404 to every request. *)
Definition old_sports_entry : entry :=
  {| m3u := "#EXTM3U" ++ JS.nl ++ "an earlier playlist"; timestamp := 0 |}.

Definition world_sports_down : world :=
  world_of [("k_sports_usa", old_sports_entry)] [] [].

(** The key [/playlist] stores under for an apikey and a region. *)
Definition plain_key (p : string * string) : string :=
  fst p ++ "_" ++ snd p.

(** ** The earlier revision of the server *)

(** [server.js]: [buildM3U] has no genre filter, [fetchAndCache] no sports
    mode and a shorter error message, and the handler of [/playlist] calls
    them; [getChannelM3u] and the refresh pass read as in the current
    revision. *)
Module Legacy.

(** The body of [results.forEach] in [buildM3U]. *)
Definition push_channel (m3uEntries : list string)
    (m3u : option channel_doc) : list string :=
  match first_stream m3u with
  | None => m3uEntries
  | Some (mt, s0) =>
      (m3uEntries
         ++ [extinf (Meta.tvgId mt) (Meta.logo mt) (primary_genre mt)
                    (JS.show (Meta.name mt)) (Stream.url s0)])%list
  end.

Definition buildM3U (c : catalog) (apikey : string) : M string :=
  results <- mapM (fun ch => getChannelM3u (id ch) apikey 3) (metas c) ;;
  ret (JS.join JS.nl (fold_left push_channel results ["#EXTM3U"])).

Definition fetchAndCache (apikey region : string) : M unit :=
  log ("Refreshing playlist for " ++ region ++ "...") ;;;
  try_catch
    (catalogRes <- fetch_catalog (catalog_url apikey region) ;;
     (if negb (ok catalogRes)
      then throw "Failed to fetch catalog"
      else ret tt) ;;;
     catalogData <- lift (json catalogRes) ;;
     playlist <- buildM3U catalogData apikey ;;
     now <- Date_now ;;
     cache_put (apikey ++ "_" ++ region)
       {| m3u := playlist; timestamp := now |} ;;;
     log ("Playlist for " ++ region ++ " updated successfully."))
    (fun message => log ("Error refreshing " ++ region ++ ": " ++ message)).

(** [app.get("/playlist", ...)] *)
Definition playlist (q : Query.t) : M http_response :=
  let apikey := Query.apikey q in
  let region := Query.region q in
  let refresh := Query.refresh q in
  if negb (JS.truthy apikey) || negb (JS.truthy region)
     || negb (valid_region region)
  then ret (send_status 400
              ("Error: Missing or invalid parameters. Valid regions: "
               ++ JS.join ", " validRegions))
  else
    let cacheKey := JS.show apikey ++ "_" ++ JS.show region in
    now <- Date_now ;;
    hit <- cache_get cacheKey ;;
    match fresh_hit refresh hit now with
    | Some e => ret (send_plain (m3u e))
    | None =>
        fetchAndCache (JS.show apikey) (JS.show region) ;;;
        stored <- cache_get cacheKey ;;
        match stored with
        | Some e => ret (send_plain (m3u e))
        | None => ret (send_status 500 "Unable to generate playlist")
        end
    end.

End Legacy.

(** Two worlds that differ at most by the lines logged. *)
Definition same_but_log (w1 w2 : world) : Prop :=
  cache w1 = cache w2
  /\ ticks w1 = ticks w2
  /\ schedule (trace w1) = schedule (trace w2).

(** ** What the regions gave *)

(** The line logged when the catalog of a region cannot be had: the status
    when it is not a success, else the message of the error caught. *)
Definition skipped_line (region : string) (a : result (response catalog))
  : event :=
  match a with
  | Thrown message =>
      EvLog ("Error processing region " ++ region ++ ": " ++ message)
  | Ok r =>
      if ok r then
        match json r with
        | Thrown message =>
            EvLog ("Error processing region " ++ region ++ ": " ++ message)
        | Ok _ => EvLog ""
        end
      else EvLog ("Failed to fetch catalog for " ++ region ++ ": "
                  ++ JS.show_int (status r))
  end.

(** [visited apikey w regions runs w']: visiting the regions in order from
    the world [w] leaves the world [w'] and gives [runs], the results of each
    region.  A region whose catalog request fails gives no result; a region
    whose catalog is had gives what [getChannelM3u] returned for each of its
    channels, in the order of the catalog. *)
Inductive visited (apikey : string)
  : world -> list string -> list (string * list (option channel_doc))
    -> world -> Prop :=
| visited_nil (w : world) : visited apikey w [] [] w
| visited_skip (w w' : world) (region : string) (rest : list string)
    (runs : list (string * list (option channel_doc))) :
    answer_fails
      (catalog_upstream w (fetching_line region :: trace w)
         (catalog_url apikey region)) = true ->
    visited apikey
      (after [skipped_line region
                (catalog_upstream w (fetching_line region :: trace w)
                   (catalog_url apikey region));
              EvFetch (catalog_url apikey region); fetching_line region] w)
      rest runs w' ->
    visited apikey w (region :: rest) ((region, []) :: runs) w'
| visited_fetch (w w1 w' : world) (region : string) (rest : list string)
    (runs : list (string * list (option channel_doc)))
    (catalogRes : response catalog) (c : catalog)
    (results : list (option channel_doc)) :
    catalog_upstream w (fetching_line region :: trace w)
      (catalog_url apikey region) = Ok catalogRes ->
    ok catalogRes = true ->
    json catalogRes = Ok c ->
    mapM (fun ch => getChannelM3u (id ch) apikey 3) (metas c)
      (after [EvFetch (catalog_url apikey region); fetching_line region] w)
    = (Ok results, w1) ->
    visited apikey w1 rest runs w' ->
    visited apikey w (region :: rest) ((region, results) :: runs) w'.


(** * Facts *)

(** ** The world after a run *)

Lemma with_trace_same (w : world) : with_trace (trace w) w = w.
Proof. destruct w; reflexivity. Qed.

Lemma after_nil (w : world) : after [] w = w.
Proof. unfold after; simpl; apply with_trace_same. Qed.

Lemma after_after (e1 e2 : list event) (w : world) :
  after e2 (after e1 w) = after (e2 ++ e1)%list w.
Proof. unfold after, with_trace; simpl. now rewrite app_assoc. Qed.

Lemma meta_upstream_after (evs : list event) (w : world) :
  meta_upstream (after evs w) = meta_upstream w.
Proof. reflexivity. Qed.

Lemma bind_ok {A B : Type} (m : M A) (k : A -> M B) (w w' : world) (a : A) :
  m w = (Ok a, w') -> bind m k w = k a w'.
Proof. intros H. unfold bind. now rewrite H. Qed.

Ltac run :=
  cbv beta iota delta
    [bind try_catch fetch_meta fetch_catalog log delay ret throw lift
     cache_get cache_put Date_now];
  cbn [with_trace with_cache with_ticks cache trace ticks clock
       catalog_upstream meta_upstream fst snd negb].

(** ** The retry loop *)

Lemma attempt_fetch_run (channelId apikey : string) (retries attempt : Z)
    (w : world) :
  attempt_fetch channelId apikey retries attempt w
  = match attempt_answer
            (meta_upstream w (trace w) (meta_url apikey channelId)) with
    | Ok doc => (Ok (Some doc), after [EvFetch (meta_url apikey channelId)] w)
    | Thrown message =>
        (Ok None,
         after ((if attempt <? retries then [EvDelay (500 * attempt)] else [])
                ++ [failed_line channelId retries attempt message;
                    EvFetch (meta_url apikey channelId)])%list w)
    end.
Proof.
  unfold attempt_fetch, attempt_answer, failed_line, after. run.
  destruct (meta_upstream w (trace w) (meta_url apikey channelId))
    as [resp|message].
  - destruct (ok resp); run.
    + destruct (json resp); run; [reflexivity|].
      destruct (attempt <? retries); reflexivity.
    + destruct (attempt <? retries); reflexivity.
  - destruct (attempt <? retries); reflexivity.
Qed.

Lemma getChannelM3u_loop_after (fuel : nat) (channelId apikey : string)
    (retries : Z) :
  forall (attempt : Z) (w : world),
  exists (r : option channel_doc) (evs : list event),
    getChannelM3u_loop fuel channelId apikey retries attempt w
    = (Ok r, after evs w).
Proof.
  induction fuel as [|fuel IH]; intros attempt w; cbn [getChannelM3u_loop].
  - exists None, []. unfold ret. now rewrite after_nil.
  - destruct (attempt <=? retries).
    2:{ exists None, []. unfold ret. now rewrite after_nil. }
    unfold bind. rewrite attempt_fetch_run.
    destruct (attempt_answer _) as [doc|message].
    + now exists doc, [EvFetch (meta_url apikey channelId)].
    + match goal with
      | |- context [getChannelM3u_loop _ _ _ _ _ ?w1] =>
          destruct (IH (attempt + 1) w1) as (r & evs & Hr)
      end.
      rewrite Hr, after_after. now eexists r, _.
Qed.

(** More fuel than the turns left does not change the run: the loop of the
    model stops where the loop of the source does. *)
Lemma getChannelM3u_loop_fuel (channelId apikey : string) (retries : Z)
    (fuel : nat) :
  forall (fuel' : nat) (attempt : Z) (w : world),
    (Z.to_nat (retries + 1 - attempt) <= fuel)%nat ->
    (Z.to_nat (retries + 1 - attempt) <= fuel')%nat ->
    getChannelM3u_loop fuel channelId apikey retries attempt w
    = getChannelM3u_loop fuel' channelId apikey retries attempt w.
Proof.
  induction fuel as [|fuel IH]; intros [|fuel'] attempt w H H';
    cbn [getChannelM3u_loop]; try reflexivity.
  - destruct (Z.leb_spec attempt retries); [lia|reflexivity].
  - destruct (Z.leb_spec attempt retries); [lia|reflexivity].
  - destruct (Z.leb_spec attempt retries); [|reflexivity].
    unfold bind. destruct (attempt_fetch _ _ _ _ w) as [[[doc|]|message] w1];
      try reflexivity.
    apply IH; lia.
Qed.

(** C3.  [getChannelM3u] with [retries = 3] never raises and sends at most
    three GETs for the channel.  A run logs one line per failed attempt and,
    oldest first, its requests and waits are: one GET when the first attempt
    succeeds; GET, 500 ms, GET when the second does; GET, 500 ms, GET,
    1000 ms, GET when the third does or when all three fail, so the wait
    after failed attempt [n] is [500 * n] ms and there is none after the
    third.  When the three attempts fail the result is [null].  An attempt
    that succeeds returns its document at once; an upstream that fails on
    every request gives [null] after the three GETs. *)
Theorem getChannelM3u_retries (channelId apikey : string) (w : world) :
  let get := EvFetch (meta_url apikey channelId) in
  exists (r : option channel_doc) (evs : list event),
    getChannelM3u channelId apikey 3 w = (Ok r, after (rev evs) w)
    /\ ((logged evs = 0%nat /\ schedule evs = [get])
        \/ (logged evs = 1%nat /\ schedule evs = [get; EvDelay 500; get])
        \/ (logged evs = 2%nat
            /\ schedule evs = [get; EvDelay 500; get; EvDelay 1000; get])
        \/ (logged evs = 3%nat
            /\ schedule evs = [get; EvDelay 500; get; EvDelay 1000; get]
            /\ r = None))
    /\ (forall doc,
          attempt_answer (meta_upstream w (trace w) (meta_url apikey channelId))
          = Ok doc ->
          r = doc /\ evs = [get])
    /\ ((forall t,
           answer_fails (meta_upstream w t (meta_url apikey channelId)) = true)
        -> r = None
           /\ logged evs = 3%nat
           /\ schedule evs = [get; EvDelay 500; get; EvDelay 1000; get]).
Proof.
  intros get. unfold getChannelM3u.
  change (Z.to_nat 3) with 3%nat. cbn [getChannelM3u_loop].
  change (1 <=? 3) with true. cbv iota.
  unfold bind at 1. rewrite attempt_fetch_run.
  destruct (attempt_answer (meta_upstream w (trace w) _)) as [d1|m1] eqn:A1.
  { exists d1, [get]. split; [reflexivity|].
    split; [left; split; reflexivity|].
    split; [intros doc H; split; congruence|].
    intros H. specialize (H (trace w)). unfold answer_fails in H.
    rewrite A1 in H. discriminate. }
  change (1 <? 3) with true. cbv iota.
  change (1 + 1) with 2. change (2 <=? 3) with true. cbv iota.
  unfold bind at 1. rewrite attempt_fetch_run, !meta_upstream_after.
  match goal with
  | |- context [attempt_answer ?a] => destruct (attempt_answer a) as [d2|m2] eqn:A2
  end.
  { exists d2, [get; failed_line channelId 3 1 m1; EvDelay 500; get].
    split; [reflexivity|].
    split; [right; left; split; reflexivity|].
    split; [intros doc H; discriminate|].
    intros H. match type of A2 with attempt_answer (_ _ ?t _) = _ =>
      specialize (H t) end. unfold answer_fails in H.
    rewrite A2 in H. discriminate. }
  change (2 <? 3) with true. cbv iota.
  change (2 + 1) with 3. change (3 <=? 3) with true. cbv iota.
  unfold bind at 1. rewrite attempt_fetch_run, !meta_upstream_after.
  match goal with
  | |- context [attempt_answer ?a] => destruct (attempt_answer a) as [d3|m3] eqn:A3
  end.
  { exists d3, [get; failed_line channelId 3 1 m1; EvDelay 500; get;
                failed_line channelId 3 2 m2; EvDelay 1000; get].
    split; [reflexivity|].
    split; [right; right; left; split; reflexivity|].
    split; [intros doc H; discriminate|].
    intros H. match type of A3 with attempt_answer (_ _ ?t _) = _ =>
      specialize (H t) end. unfold answer_fails in H.
    rewrite A3 in H. discriminate. }
  change (3 <? 3) with false. cbv iota.
  exists None, [get; failed_line channelId 3 1 m1; EvDelay 500; get;
                failed_line channelId 3 2 m2; EvDelay 1000; get;
                failed_line channelId 3 3 m3].
  split; [reflexivity|].
  split; [right; right; right; repeat split; reflexivity|].
  split; [intros doc H; discriminate|].
  intros _. repeat split; reflexivity.
Qed.

Lemma getChannelM3u_retries_witness :
  fst (getChannelM3u "c2" "k" 3 world_c1_c2) = Ok None.
Proof.
  destruct (getChannelM3u_retries "c2" "k" world_c1_c2)
    as (r & evs & Hrun & _ & _ & Hfail).
  rewrite Hrun. cbn [fst]. f_equal.
  apply Hfail. intros t. reflexivity.
Defined.

Lemma getChannelM3u_after (channelId apikey : string) (retries : Z) (w : world) :
  exists (r : option channel_doc) (evs : list event),
    getChannelM3u channelId apikey retries w = (Ok r, after evs w).
Proof. apply getChannelM3u_loop_after. Qed.

Lemma mapM_getChannelM3u (apikey : string) (channels : list channel_stub) :
  forall w : world,
  exists (results : list (option channel_doc)) (evs : list event),
    mapM (fun ch => getChannelM3u (id ch) apikey 3) channels w
    = (Ok results, after evs w)
    /\ length results = length channels.
Proof.
  induction channels as [|ch rest IH]; intros w; cbn [mapM].
  - exists [], []. unfold ret. now rewrite after_nil.
  - destruct (getChannelM3u_after (id ch) apikey 3 w) as (r & e1 & H1).
    destruct (IH (after e1 w)) as (rs & e2 & H2 & Hlen).
    exists (r :: rs), (e2 ++ e1)%list. split.
    + rewrite (bind_ok _ _ _ _ _ H1), (bind_ok _ _ _ _ _ H2).
      unfold ret. now rewrite after_after.
    + simpl. now rewrite Hlen.
Qed.

(** ** The entries of a playlist *)

Lemma first_stream_cases (r : option channel_doc) :
  (exists mt s, first_stream r = Some (mt, s) /\ complete r mt s)
  \/ (first_stream r = None /\ incomplete r).
Proof.
  destruct r as [[[mt|]]|]; cbn [first_stream meta].
  - destruct (Meta.streams mt) as [[|[s|] rest]|] eqn:E; cbn [nth_error].
    + right. split; [reflexivity|]. now apply incomplete_empty_streams.
    + left. exists mt, s. split; [reflexivity|]. now apply complete_intro with rest.
    + right. split; [reflexivity|]. now apply incomplete_first_stream with rest.
    + right. split; [reflexivity|]. now apply incomplete_no_streams.
  - right. split; [reflexivity|]. constructor.
  - right. split; [reflexivity|]. constructor.
Qed.

Lemma complete_not_incomplete (r : option channel_doc) (mt : Meta.t)
    (s : Stream.t) :
  complete r mt s -> ~ incomplete r.
Proof.
  intros Hc Hi. inversion Hc as [mt' s' rest Hs]; subst.
  inversion Hi; subst; congruence.
Qed.

Lemma complete_unique (r : option channel_doc) (mt mt' : Meta.t)
    (s s' : Stream.t) :
  complete r mt s -> complete r mt' s' -> mt = mt' /\ s = s'.
Proof.
  intros H H'. inversion H; subst. inversion H'; subst.
  split; congruence.
Qed.

(** The entries of the results are determined. *)
Lemma playlist_of_unique (results : list (option channel_doc)) :
  forall lines lines',
    playlist_of results lines -> playlist_of results lines' -> lines = lines'.
Proof.
  induction results as [|r rs IH]; intros lines lines' H H'.
  - inversion H; inversion H'; reflexivity.
  - inversion H; subst; inversion H'; subst.
    + match goal with
      | H1 : complete r _ _, H2 : complete r _ _ |- _ =>
          destruct (complete_unique _ _ _ _ _ H1 H2); subst
      end.
      f_equal. now apply IH.
    + exfalso. eapply complete_not_incomplete; eassumption.
    + exfalso. eapply complete_not_incomplete; eassumption.
    + now apply IH.
Qed.

Lemma m3uEntries_plain (results : list (option channel_doc)) :
  exists lines,
    playlist_of results lines
    /\ forall acc,
         fold_left (push_channel false) results acc = (acc ++ lines)%list.
Proof.
  induction results as [|r rs (lines & Hp & Hf)].
  - exists []. split; [constructor|]. intros acc. simpl. now rewrite app_nil_r.
  - destruct (first_stream_cases r) as [(mt & s & E & Hc)|[E Hi]].
    + exists (entry_of mt s :: lines). split; [now constructor|].
      intros acc. cbn [fold_left]. unfold push_channel at 2. rewrite E.
      cbn [andb]. rewrite Hf, <- app_assoc. reflexivity.
    + exists lines. split; [now apply playlist_skip|].
      intros acc. cbn [fold_left]. unfold push_channel at 2. now rewrite E.
Qed.

(** C4.  For every catalog and whatever the channels' fetches give,
    [buildM3U] without the genre filter returns the header [#EXTM3U] followed
    by one entry (directive line and stream URL) for each channel whose result
    is complete, in the order of the catalog; a channel whose result is
    absent, or whose metadata has no stream list or no first stream, gives no
    entry.  For the catalog of [c1] and [c2] where [c1] resolves and the
    three attempts for [c2] fail, the text is the header and the entry of
    [c1]. *)
Theorem buildM3U_entries :
  (forall (c : catalog) (apikey : string) (w : world),
    exists (results : list (option channel_doc)) (evs : list event)
           (lines : list string),
      mapM (fun ch => getChannelM3u (id ch) apikey 3) (metas c) w
      = (Ok results, after evs w)
      /\ length results = length (metas c)
      /\ playlist_of results lines
      /\ buildM3U c apikey false w
         = (Ok (JS.join JS.nl ("#EXTM3U" :: lines)), after evs w))
  /\ fst (buildM3U {| metas := [ {| id := "c1" |}; {| id := "c2" |} ] |} "k"
            false world_c1_c2)
     = Ok (JS.join JS.nl
             ["#EXTM3U";
              "#EXTINF:-1 tvg-id=" ++ dq ++ "undefined" ++ dq
              ++ " tvg-logo=" ++ dq ++ "undefined" ++ dq
              ++ " group-title=" ++ dq ++ "News" ++ dq ++ ",News1";
              "http://x/1"]).
Proof.
  split; [|reflexivity].
  intros c apikey w.
  destruct (mapM_getChannelM3u apikey (metas c) w) as (results & evs & Hm & Hlen).
  destruct (m3uEntries_plain results) as (lines & Hp & Hf).
  exists results, evs, lines. repeat split; auto.
  unfold buildM3U. rewrite (bind_ok _ _ _ _ _ Hm).
  unfold ret, m3uEntries_of. now rewrite Hf.
Qed.

(** ** Ordered maps: reading after writing *)

Lemma id_eqb_eq (a b : option string) : id_eqb a b = true <-> a = b.
Proof.
  destruct a as [x|], b as [y|]; simpl; split; intros H;
    try discriminate; try reflexivity.
  - apply String.eqb_eq in H. now subst.
  - injection H as ->. apply String.eqb_refl.
Qed.

Section OrderedMapFacts.

Context {K V : Type} (eqb : K -> K -> bool).
Hypothesis eqb_eq : forall a b, eqb a b = true <-> a = b.

Lemma eqb_same (a : K) : eqb a a = true.
Proof. now apply eqb_eq. Qed.

Lemma om_get_set_same (k : K) (v : V) (m : list (K * V)) :
  om_get eqb k (om_set eqb k v m) = Some v.
Proof.
  induction m as [|[k' v'] rest IH]; simpl.
  - now rewrite eqb_same.
  - destruct (eqb k k') eqn:E; simpl.
    + now rewrite eqb_same.
    + now rewrite E.
Qed.

Lemma om_get_set_other (k k' : K) (v : V) (m : list (K * V)) :
  k <> k' -> om_get eqb k' (om_set eqb k v m) = om_get eqb k' m.
Proof.
  intros Hne. induction m as [|[k2 v2] rest IH]; simpl.
  - destruct (eqb k' k) eqn:E; [|reflexivity].
    apply eqb_eq in E. congruence.
  - destruct (eqb k k2) eqn:E; simpl.
    + apply eqb_eq in E. subst k2.
      destruct (eqb k' k) eqn:E'; [|reflexivity].
      apply eqb_eq in E'. congruence.
    + now rewrite IH.
Qed.

Lemma om_set_Forall (P : K * V -> Prop) (k : K) (v : V) (m : list (K * V)) :
  Forall P m -> P (k, v) -> Forall P (om_set eqb k v m).
Proof.
  intros Hm Hkv. induction Hm as [|[k' v'] rest Hx Hrest IH]; simpl.
  - now constructor.
  - destruct (eqb k k'); constructor; auto.
Qed.

End OrderedMapFacts.

(** ** The multi-region build *)

Lemma merge_channel_offer (region : string)
    (allChannels : list (option string * Channel.t))
    (r : option channel_doc) :
  merge_channel region allChannels r
  = match offer region r with
    | None => allChannels
    | Some ch =>
        if negb (om_has id_eqb (Channel.tvgId ch) allChannels)
           || String.eqb region preferred
        then om_set id_eqb (Channel.tvgId ch) ch allChannels
        else allChannels
    end.
Proof.
  unfold merge_channel, offer.
  destruct (first_stream r) as [[mt s]|]; [|reflexivity].
  destruct (is_sports (primary_genre mt)); reflexivity.
Qed.

Lemma offer_complete (region : string) (r : option channel_doc)
    (ch : Channel.t) :
  offer region r = Some ch ->
  exists mt s,
    complete r mt s /\ ch = channel_of region mt s
    /\ same_genre (primary_genre mt) "sports".
Proof.
  unfold offer. intros H.
  destruct (first_stream_cases r) as [(mt & s & E & Hc)|[E _]];
    rewrite E in H; [|discriminate].
  destruct (is_sports (primary_genre mt)) eqn:G; [|discriminate].
  injection H as <-. exists mt, s. repeat split; auto.
  unfold is_sports in G. apply String.eqb_eq in G.
  unfold same_genre. now rewrite G.
Qed.

Lemma merge_channel_sports (region : string) (r : option channel_doc)
    (allChannels : list (option string * Channel.t)) :
  all_sports allChannels -> all_sports (merge_channel region allChannels r).
Proof.
  intros H. rewrite merge_channel_offer.
  destruct (offer region r) as [ch|] eqn:E; [|exact H].
  destruct (negb _ || _); [|exact H].
  apply om_set_Forall; [exact H|].
  destruct (offer_complete _ _ _ E) as (mt & s & _ & -> & G). exact G.
Qed.

Lemma merge_runs_sports (runs : list (string * list (option channel_doc))) :
  forall allChannels,
    all_sports allChannels -> all_sports (merge_runs runs allChannels).
Proof.
  unfold merge_runs.
  induction runs as [|[region results] rest IH]; intros m H; simpl; [exact H|].
  apply IH. clear IH. revert m H.
  induction results as [|r rs IHr]; intros m H; simpl; [exact H|].
  apply IHr. now apply merge_channel_sports.
Qed.

Lemma merge_region_run (apikey region : string)
    (allChannels : list (option string * Channel.t)) (w : world) :
  exists (results : list (option channel_doc)) (evs : list event),
    merge_region apikey region allChannels w
    = (Ok (fold_left (merge_channel region) results allChannels),
       after evs w).
Proof.
  unfold merge_region. run.
  destruct (catalog_upstream w _ (catalog_url apikey region))
    as [catalogRes|message].
  - destruct (ok catalogRes); run.
    + destruct (json catalogRes) as [catalogData|message]; run.
      * set (w1 := after [EvFetch (catalog_url apikey region);
                          EvLog ("Fetching sports channels for " ++ region
                                 ++ "...")] w).
        match goal with
        | |- context [mapM ?f ?l ?w0] => change w0 with w1
        end.
        destruct (mapM_getChannelM3u apikey (metas catalogData) w1)
          as (rs & evs & Hm & _).
        rewrite Hm. exists rs. eexists. unfold w1. now rewrite after_after.
      * exists []. eexists (_ :: _ :: _ :: nil). reflexivity.
    + exists []. eexists (_ :: _ :: _ :: nil). reflexivity.
  - exists []. eexists (_ :: _ :: _ :: nil). reflexivity.
Qed.

Lemma merge_regions_run (apikey : string) (regions : list string) :
  forall (allChannels : list (option string * Channel.t)) (w : world),
  exists (runs : list (string * list (option channel_doc)))
         (evs : list event),
    map fst runs = regions
    /\ merge_regions apikey regions allChannels w
       = (Ok (merge_runs runs allChannels), after evs w).
Proof.
  induction regions as [|region rest IH]; intros m w; cbn [merge_regions].
  - exists [], []. split; [reflexivity|]. unfold ret. now rewrite after_nil.
  - destruct (merge_region_run apikey region m w) as (rs & e1 & H1).
    destruct (IH (fold_left (merge_channel region) rs m) (after e1 w))
      as (runs & e2 & Hfst & H2).
    exists ((region, rs) :: runs), (e2 ++ e1)%list. split.
    + simpl. now rewrite Hfst.
    + rewrite (bind_ok _ _ _ _ _ H1), H2, after_after. reflexivity.
Qed.

Lemma render_channels_lines (allChannels : list (option string * Channel.t)) :
  render_channels allChannels
  = JS.join JS.nl ("#EXTM3U" :: map channel_line (om_values allChannels)).
Proof.
  unfold render_channels. f_equal.
  generalize (om_values allChannels) as l. intros l.
  change ("#EXTM3U" :: map channel_line l)
    with (["#EXTM3U"] ++ map channel_line l)%list.
  generalize ["#EXTM3U"] as acc. induction l as [|ch rest IH]; intros acc; simpl.
  - now rewrite app_nil_r.
  - rewrite IH, <- app_assoc. reflexivity.
Qed.

Lemma buildMultiRegionSportsM3U_run (apikey : string) (regions : list string)
    (w : world) :
  exists (runs : list (string * list (option channel_doc)))
         (evs : list event),
    map fst runs = regions
    /\ buildMultiRegionSportsM3U apikey regions w
       = (Ok (JS.join JS.nl
                ("#EXTM3U"
                 :: map channel_line (om_values (merge_runs runs [])))),
          after evs w).
Proof.
  destruct (merge_regions_run apikey regions [] w) as (runs & evs & Hfst & H).
  exists runs, evs. split; [exact Hfst|].
  unfold buildMultiRegionSportsM3U. rewrite (bind_ok _ _ _ _ _ H).
  unfold ret. now rewrite render_channels_lines.
Qed.

Lemma m3uEntries_sports (results : list (option channel_doc)) :
  exists lines,
    (forall acc,
        fold_left (push_channel true) results acc = (acc ++ lines)%list)
    /\ Forall (fun line =>
                 exists r mt s,
                   In r results /\ complete r mt s
                   /\ same_genre (primary_genre mt) "sports"
                   /\ line = entry_of mt s)
              lines.
Proof.
  induction results as [|r rs (lines & Hf & Hall)].
  - exists []. split; [|constructor]. intros acc. simpl. now rewrite app_nil_r.
  - assert (Hall' : Forall (fun line =>
                 exists r0 mt s,
                   In r0 (r :: rs) /\ complete r0 mt s
                   /\ same_genre (primary_genre mt) "sports"
                   /\ line = entry_of mt s) lines).
    { eapply Forall_impl; [|exact Hall].
      intros line (r0 & mt & s & Hin & H). exists r0, mt, s.
      split; [now right|exact H]. }
    destruct (first_stream_cases r) as [(mt & s & E & Hc)|[E Hi]].
    + destruct (is_sports (primary_genre mt)) eqn:G.
      * exists (entry_of mt s :: lines). split.
        -- intros acc. cbn [fold_left]. unfold push_channel at 2.
           rewrite E, G. cbn [andb negb]. rewrite Hf, <- app_assoc. reflexivity.
        -- constructor; [|exact Hall'].
           exists r, mt, s. repeat split; auto; [now left|].
           unfold is_sports in G. apply String.eqb_eq in G.
           unfold same_genre. now rewrite G.
      * exists lines. split; [|exact Hall'].
        intros acc. cbn [fold_left]. unfold push_channel at 2.
        rewrite E, G. cbn [andb negb]. apply Hf.
    + exists lines. split; [|exact Hall'].
      intros acc. cbn [fold_left]. unfold push_channel at 2. rewrite E. apply Hf.
Qed.

(** C5.  With the sports filter on, every entry of the playlist [buildM3U]
    returns is the entry of a complete channel of the results whose primary
    genre equals "sports" without regard to case; and every channel of the
    playlist of [buildMultiRegionSportsM3U] has such a genre.  So no entry of
    another genre is in either playlist. *)
Theorem sports_filter_entries :
  (forall (c : catalog) (apikey : string) (w : world),
    exists (results : list (option channel_doc)) (evs : list event)
           (lines : list string),
      mapM (fun ch => getChannelM3u (id ch) apikey 3) (metas c) w
      = (Ok results, after evs w)
      /\ buildM3U c apikey true w
         = (Ok (JS.join JS.nl ("#EXTM3U" :: lines)), after evs w)
      /\ Forall (fun line =>
                   exists r mt s,
                     In r results /\ complete r mt s
                     /\ same_genre (primary_genre mt) "sports"
                     /\ line = entry_of mt s)
                lines)
  /\ (forall (apikey : string) (regions : list string) (w : world),
       exists (channels : list Channel.t) (evs : list event),
         buildMultiRegionSportsM3U apikey regions w
         = (Ok (JS.join JS.nl ("#EXTM3U" :: map channel_line channels)),
            after evs w)
         /\ Forall (fun ch => same_genre (Channel.genre ch) "sports")
                   channels).
Proof.
  split.
  - intros c apikey w.
    destruct (mapM_getChannelM3u apikey (metas c) w)
      as (results & evs & Hm & _).
    destruct (m3uEntries_sports results) as (lines & Hf & Hall).
    exists results, evs, lines. repeat split; auto.
    unfold buildM3U. rewrite (bind_ok _ _ _ _ _ Hm).
    unfold ret, m3uEntries_of. now rewrite Hf.
  - intros apikey regions w.
    destruct (buildMultiRegionSportsM3U_run apikey regions w)
      as (runs & evs & _ & H).
    exists (om_values (merge_runs runs [])), evs. split; [exact H|].
    assert (Hs : all_sports (merge_runs runs []))
      by (apply merge_runs_sports; constructor).
    unfold all_sports in Hs. unfold om_values.
    apply Forall_map. exact Hs.
Qed.

(** ** Deduplication across regions *)














Lemma merge_region_cases (apikey region : string)
    (allChannels : list (option string * Channel.t)) (w : world) :
  let url := catalog_url apikey region in
  let a := catalog_upstream w (fetching_line region :: trace w) url in
  (answer_fails a = true
   /\ merge_region apikey region allChannels w
      = (Ok allChannels,
         after [skipped_line region a; EvFetch url; fetching_line region] w))
  \/ (exists catalogRes c results w1,
         a = Ok catalogRes /\ ok catalogRes = true /\ json catalogRes = Ok c
         /\ mapM (fun ch => getChannelM3u (id ch) apikey 3) (metas c)
              (after [EvFetch url; fetching_line region] w)
            = (Ok results, w1)
         /\ merge_region apikey region allChannels w
            = (Ok (fold_left (merge_channel region) results allChannels),
               w1)).
Proof.
  intros url a. subst url a.
  unfold answer_fails, attempt_answer, skipped_line, merge_region,
    fetching_line.
  run.
  destruct (catalog_upstream w _ (catalog_url apikey region))
    as [catalogRes|message].
  - destruct (ok catalogRes) eqn:Hok; run.
    + destruct (json catalogRes) as [c|message] eqn:Hjson; run.
      * right.
        set (w1 := after [EvFetch (catalog_url apikey region);
                          EvLog ("Fetching sports channels for " ++ region
                                 ++ "...")] w).
        match goal with
        | |- context [mapM ?f ?l ?w0] => change w0 with w1
        end.
        destruct (mapM_getChannelM3u apikey (metas c) w1)
          as (rs & evs & Hm & _).
        exists catalogRes, c, rs, (after evs w1).
        rewrite Hm. repeat split; auto.
      * left. split; reflexivity.
    + left. split; reflexivity.
  - left. split; reflexivity.
Qed.

Lemma merge_regions_visited (apikey : string) (regions : list string) :
  forall (allChannels : list (option string * Channel.t)) (w : world),
  exists (runs : list (string * list (option channel_doc))) (w' : world),
    visited apikey w regions runs w'
    /\ merge_regions apikey regions allChannels w
       = (Ok (merge_runs runs allChannels), w').
Proof.
  induction regions as [|region rest IH]; intros m w; cbn [merge_regions].
  - exists [], w. split; [constructor|reflexivity].
  - destruct (merge_region_cases apikey region m w)
      as [[Hf Hrun]|(r & c & rs & w1 & Ha & Hok & Hjson & Hm & Hrun)].
    + match type of Hrun with
      | _ = (_, ?w1) => destruct (IH m w1) as (runs & w' & Hv & Hrest)
      end.
      exists ((region, []) :: runs), w'. split.
      * now apply visited_skip.
      * now rewrite (bind_ok _ _ _ _ _ Hrun), Hrest.
    + destruct (IH (fold_left (merge_channel region) rs m) w1)
        as (runs & w' & Hv & Hrest).
      exists ((region, rs) :: runs), w'. split.
      * now apply visited_fetch with w1 r c.
      * now rewrite (bind_ok _ _ _ _ _ Hrun), Hrest.
Qed.

Lemma buildMultiRegionSportsM3U_visited (apikey : string)
    (regions : list string) (w : world) :
  exists (runs : list (string * list (option channel_doc))) (w' : world),
    visited apikey w regions runs w'
    /\ buildMultiRegionSportsM3U apikey regions w
       = (Ok (JS.join JS.nl
                ("#EXTM3U"
                 :: map channel_line (om_values (merge_runs runs [])))),
          w').
Proof.
  destruct (merge_regions_visited apikey regions [] w) as (runs & w' & Hv & H).
  exists runs, w'. split; [exact Hv|].
  unfold buildMultiRegionSportsM3U. rewrite (bind_ok _ _ _ _ _ H).
  unfold ret. now rewrite render_channels_lines.
Qed.

Lemma visited_regions (apikey : string) (w w' : world)
    (regions : list string)
    (runs : list (string * list (option channel_doc))) :
  visited apikey w regions runs w' -> map fst runs = regions.
Proof. induction 1; simpl; congruence. Qed.

(** What the regions gave is determined by the world the visit starts
    from. *)
Lemma visited_unique (apikey : string) (w w1 : world)
    (regions : list string)
    (runs1 : list (string * list (option channel_doc))) :
  visited apikey w regions runs1 w1 ->
  forall runs2 w2,
    visited apikey w regions runs2 w2 -> runs1 = runs2 /\ w1 = w2.
Proof.
  induction 1 as [w|w w' region rest runs Hf Hv IH
                 |w w1 w' region rest runs r c results Ha Hok Hjson Hm Hv IH];
    intros runs2 w2 H2.
  - inversion H2; subst. now split.
  - inversion H2 as [|? ? ? ? runs0 Hf2 Hv2
                     |? w1x ? ? ? runs0 r2 c2 results2 Ha2 Hok2 Hjson2 Hm2 Hv2];
      subst.
    + destruct (IH _ _ Hv2) as [-> ->]. now split.
    + exfalso. unfold answer_fails, attempt_answer in Hf.
      rewrite Ha2, Hok2, Hjson2 in Hf. discriminate.
  - inversion H2 as [|? ? ? ? runs0 Hf2 Hv2
                     |? w1x ? ? ? runs0 r2 c2 results2 Ha2 Hok2 Hjson2 Hm2 Hv2];
      subst.
    + exfalso. unfold answer_fails, attempt_answer in Hf2.
      rewrite Ha, Hok, Hjson in Hf2. discriminate.
    + assert (r2 = r) by congruence. subst r2.
      assert (c2 = c) by congruence. subst c2.
      assert (E : (Ok results2, w1x) = (Ok results, w1)) by congruence.
      injection E as -> ->.
      destruct (IH _ _ Hv2) as [-> ->]. now split.
Qed.

Lemma merge_runs_own_key (runs : list (string * list (option channel_doc))) :
  forall m,
    Forall (fun kv => Channel.tvgId (snd kv) = fst kv) m ->
    Forall (fun kv => Channel.tvgId (snd kv) = fst kv) (merge_runs runs m).
Proof.
  unfold merge_runs.
  induction runs as [|[region results] rest IH]; intros m H; simpl; [exact H|].
  apply IH. clear IH. revert m H.
  induction results as [|r rs IHr]; intros m H; simpl; [exact H|].
  apply IHr. rewrite merge_channel_offer.
  destruct (offer region r) as [ch|]; [|exact H].
  destruct (negb _ || _); [|exact H].
  now apply om_set_Forall.
Qed.






(** ** Cache and rebuild *)

Lemma fetchAndCache_failure (apikey region : string) (sportsOnly : bool)
    (w : world) :
  answer_fails
    (catalog_upstream w (refreshing_line region sportsOnly :: trace w)
       (catalog_url apikey region)) = true ->
  exists evs : list event,
    fetchAndCache apikey region sportsOnly w = (Ok tt, after evs w).
Proof.
  unfold answer_fails, attempt_answer, fetchAndCache, refreshing_line.
  run. intros H.
  destruct (catalog_upstream w _ (catalog_url apikey region))
    as [catalogRes|message].
  - destruct (ok catalogRes); run.
    + destruct (json catalogRes) as [c|message]; [discriminate|]. run.
      eexists (_ :: _ :: _ :: nil). reflexivity.
    + eexists (_ :: _ :: _ :: nil). reflexivity.
  - eexists (_ :: _ :: _ :: nil). reflexivity.
Qed.

Lemma fetchAndCache_success (apikey region : string) (sportsOnly : bool)
    (w : world) (catalogRes : response catalog) (c : catalog) :
  catalog_upstream w (refreshing_line region sportsOnly :: trace w)
    (catalog_url apikey region) = Ok catalogRes ->
  ok catalogRes = true ->
  json catalogRes = Ok c ->
  let w1 :=
    after [EvFetch (catalog_url apikey region);
           refreshing_line region sportsOnly] w in
  exists (results : list (option channel_doc)) (evs : list event)
         (w' : world),
    mapM (fun ch => getChannelM3u (id ch) apikey 3) (metas c) w1
    = (Ok results, after evs w1)
    /\ length results = length (metas c)
    /\ fetchAndCache apikey region sportsOnly w = (Ok tt, w')
    /\ cache w'
       = om_set String.eqb (key_of apikey region sportsOnly)
           {| m3u := JS.join JS.nl (m3uEntries_of sportsOnly results);
              timestamp := clock w (ticks w) |}
           (cache w).
Proof.
  intros Ha Hok Hjson w1.
  destruct (mapM_getChannelM3u apikey (metas c) w1)
    as (results & evs & Hm & Hlen).
  exists results, evs. eexists. split; [exact Hm|]. split; [exact Hlen|].
  unfold fetchAndCache, refreshing_line in *. run.
  rewrite Ha, Hok. run. rewrite Hjson. unfold buildM3U. run.
  match goal with
  | |- context [mapM ?f ?l ?w0] => change w0 with w1
  end.
  rewrite Hm. cbn [after with_trace cache trace ticks clock].
  split; [reflexivity|]. unfold key_of. now destruct sportsOnly.
Qed.

Lemma answer_cases {A : Type} (a : result (response A)) :
  answer_fails a = true
  \/ exists r doc, a = Ok r /\ ok r = true /\ json r = Ok doc.
Proof.
  unfold answer_fails, attempt_answer. destruct a as [r|message]; [|now left].
  destruct (ok r) eqn:Hok; [|now left].
  destruct (json r) as [doc|message] eqn:Hjson; [|now left].
  right. now exists r, doc.
Qed.

Lemma string_om_get_set (key key' : string) (e : entry)
    (c : list (string * entry)) :
  om_get String.eqb key' (om_set String.eqb key e c)
  = if String.eqb key key' then Some e else om_get String.eqb key' c.
Proof.
  destruct (String.eqb key key') eqn:E.
  - apply String.eqb_eq in E. subst.
    apply (om_get_set_same String.eqb String.eqb_eq).
  - apply (om_get_set_other String.eqb String.eqb_eq).
    intros ->. now rewrite String.eqb_refl in E.
Qed.

Lemma fetchAndCache_cases (apikey region : string) (sportsOnly : bool)
    (w : world) :
  exists w' : world,
    fetchAndCache apikey region sportsOnly w = (Ok tt, w')
    /\ (cache w' = cache w
        \/ exists e,
             cache w'
             = om_set String.eqb (key_of apikey region sportsOnly) e (cache w)).
Proof.
  destruct (answer_cases
              (catalog_upstream w (refreshing_line region sportsOnly :: trace w)
                 (catalog_url apikey region)))
    as [Hf|(r & c & Ha & Hok & Hjson)].
  - destruct (fetchAndCache_failure _ _ _ _ Hf) as (evs & H).
    exists (after evs w). split; [exact H|now left].
  - destruct (fetchAndCache_success _ _ _ _ _ _ Ha Hok Hjson)
      as (results & evs & w' & _ & _ & H & Hc).
    exists w'. split; [exact H|right]. eexists. exact Hc.
Qed.

Lemma fetchAndCache_holds (apikey region : string) (sportsOnly : bool)
    (w : world) (key : string) :
  holds_key key w ->
  holds_key key (snd (fetchAndCache apikey region sportsOnly w)).
Proof.
  intros [e He].
  destruct (fetchAndCache_cases apikey region sportsOnly w)
    as (w' & H & [Hc|[e' Hc]]); rewrite H; cbn [snd]; unfold holds_key;
    rewrite Hc.
  - now exists e.
  - rewrite string_om_get_set. destruct (String.eqb _ key); eauto.
Qed.

Lemma forM_refresh_holds (keys : list string) (key : string) :
  forall w : world,
    holds_key key w -> holds_key key (snd (forM_ refresh_key keys w)).
Proof.
  induction keys as [|k rest IH]; intros w H; cbn [forM_]; [exact H|].
  unfold refresh_key at 1.
  pose proof (fetchAndCache_holds
                (JS.show (nth_error (JS.split "_" k) 0))
                (JS.show (nth_error (JS.split "_" k) 1)) false w key H) as H1.
  destruct (fetchAndCache_cases
              (JS.show (nth_error (JS.split "_" k) 0))
              (JS.show (nth_error (JS.split "_" k) 1)) false w)
    as (w' & Hrun & _).
  rewrite (bind_ok _ _ _ _ _ Hrun). rewrite Hrun in H1. now apply IH.
Qed.

(** C8 as stated fails for a key of [/sports-playlist]: the cache holds an
    earlier playlist under [k_sports_usa], the rebuild of that key is the
    multi-region build, the catalog request of [usa] fails, and the entry is
    overwritten with the header alone. *)
Lemma sports_rebuild_overwrites_entry :
  om_get String.eqb "k_sports_usa" (cache world_sports_down)
  = Some old_sports_entry
  /\ rev (trace (snd (sports_playlist
                        (query_of (Some "k") None None (Some "1"))
                        world_sports_down)))
     = [EvLog "Generating sports playlist for regions: usa";
        EvLog "Fetching sports channels for usa...";
        EvFetch (catalog_url "k" "usa");
        EvLog "Failed to fetch catalog for usa: 404"]
  /\ fst (sports_playlist (query_of (Some "k") None None (Some "1"))
            world_sports_down)
     = Ok (send_plain "#EXTM3U")
  /\ om_get String.eqb "k_sports_usa"
       (cache (snd (sports_playlist
                      (query_of (Some "k") None None (Some "1"))
                      world_sports_down)))
     = Some {| m3u := "#EXTM3U"; timestamp := 0 |}
  /\ {| m3u := "#EXTM3U"; timestamp := 0 |} <> old_sports_entry.
Proof. repeat split. discriminate. Qed.

(** C8, amended.  When the catalog request of a rebuild by [fetchAndCache]
    (the build of [/playlist] and of the refresh pass) fails (the network
    fails, the status is not a success or the body does not parse),
    [fetchAndCache] returns without raising and leaves the cache as it was,
    so every entry reads as before.  And whatever the upstream answers, a key
    the cache holds is still held after [fetchAndCache] and after a refresh
    pass: nothing is ever deleted. *)
Theorem failed_rebuild_keeps_entry :
  (forall (apikey region : string) (sportsOnly : bool) (w : world),
      answer_fails
        (catalog_upstream w (refreshing_line region sportsOnly :: trace w)
           (catalog_url apikey region)) = true ->
      exists w' : world,
        fetchAndCache apikey region sportsOnly w = (Ok tt, w')
        /\ cache w' = cache w
        /\ forall key,
             om_get String.eqb key (cache w')
             = om_get String.eqb key (cache w))
  /\ (forall (w : world) (key : string) (e : entry),
        om_get String.eqb key (cache w) = Some e ->
        (forall apikey region sportsOnly,
            exists e',
              om_get String.eqb key
                (cache (snd (fetchAndCache apikey region sportsOnly w)))
              = Some e')
        /\ (forall first,
              exists e',
                om_get String.eqb key (cache (snd (refreshPass first w)))
                = Some e')).
Proof.
  split.
  - intros apikey region sportsOnly w Hf.
    destruct (fetchAndCache_failure _ _ _ _ Hf) as (evs & H).
    exists (after evs w). repeat split; auto.
  - intros w key e He. split.
    + intros apikey region sportsOnly.
      apply fetchAndCache_holds. now exists e.
    + intros first. unfold refreshPass. run.
      match goal with
      | |- context [forM_ refresh_key ?ks ?w0] =>
          apply (forM_refresh_holds ks key w0)
      end.
      now exists e.
Qed.

Lemma failed_rebuild_keeps_entry_witness :
  cache (snd (fetchAndCache "k" "usa" false world_down))
  = [("k_usa", stale_entry)]
  /\ exists e',
       om_get String.eqb "k_usa" (cache (snd (refreshPass true world_down)))
       = Some e'.
Proof.
  destruct failed_rebuild_keeps_entry as [Hfail Hkeep].
  split.
  - destruct (Hfail "k" "usa" false world_down) as (w' & Hrun & Hc & _);
      [reflexivity|].
    rewrite Hrun. exact Hc.
  - destruct (Hkeep world_down "k_usa" stale_entry) as [_ H]; [reflexivity|].
    exact (H true).
Defined.

(** ** The [/playlist] handler *)

Lemma includes_In (l : list string) (x : string) :
  JS.includes l x = true <-> In x l.
Proof.
  unfold JS.includes. rewrite existsb_exists. split.
  - intros (y & Hin & E). apply String.eqb_eq in E. now subst.
  - intros H. exists x. split; [exact H|apply String.eqb_refl].
Qed.

Lemma truthy_Some (x : string) : x <> "" -> JS.truthy (Some x) = true.
Proof.
  intros H. unfold JS.truthy. destruct (String.eqb x "") eqn:E; [|reflexivity].
  apply String.eqb_eq in E. contradiction.
Qed.

Lemma valid_region_truthy (r : string) :
  In r validRegions -> JS.truthy (Some r) = true.
Proof.
  intros H. apply truthy_Some. intros ->.
  unfold validRegions in H. simpl in H.
  repeat (destruct H as [H|H]; [discriminate|]). exact H.
Qed.

(** C7.  A request to [/playlist] without an apikey (or with an empty one),
    without a region, or with a region outside the valid set, is answered 400
    with the message that lists the valid regions, and the world is what it
    was: the cache is not read or written and no request goes upstream. *)
Theorem playlist_invalid (q : Query.t) (w : world) :
  Query.apikey q = None \/ Query.apikey q = Some ""
  \/ Query.region q = None
  \/ (exists r, Query.region q = Some r /\ ~ In r validRegions) ->
  playlist q w
  = (Ok {| code := 400; type := None; body := invalid_parameters |}, w).
Proof.
  intros H. unfold playlist.
  destruct H as [H|[H|[H|(r & H & Hr)]]]; rewrite H; cbn [JS.truthy negb orb].
  - reflexivity.
  - reflexivity.
  - now rewrite orb_true_r.
  - cbn [valid_region].
    destruct (JS.includes validRegions r) eqn:I.
    + apply includes_In in I. contradiction.
    + cbn [negb]. now rewrite orb_true_r.
Qed.

Lemma playlist_invalid_witness :
  playlist (query_of (Some "k") (Some "de") None None) world_down
  = (Ok {| code := 400; type := None; body := invalid_parameters |},
     world_down).
Proof.
  apply (playlist_invalid (query_of (Some "k") (Some "de") None None)
           world_down).
  right. right. right. exists "de". split; [reflexivity|].
  unfold validRegions. simpl.
  intros H. repeat (destruct H as [H|H]; [discriminate|]). exact H.
Defined.

(** C6.  When the cache holds an entry for the key of the request, the
    reading of the clock is less than 24 hours past the entry's time stamp and
    the request has no [refresh] parameter, [/playlist] answers 200 with the
    text of the entry, sends no request upstream and leaves the cache as it
    is; the same request repeated while the entry is fresh gets the same
    text. *)
Theorem playlist_fresh_hit (q : Query.t) (w : world) (apikey region : string)
    (e : entry) :
  Query.apikey q = Some apikey -> apikey <> "" ->
  Query.region q = Some region -> In region validRegions ->
  Query.refresh q = None ->
  om_get String.eqb (apikey ++ "_" ++ region) (cache w) = Some e ->
  clock w (ticks w) - timestamp e < CACHE_DURATION ->
  let w' := snd (playlist q w) in
  playlist q w = (Ok (send_plain (m3u e)), with_ticks (S (ticks w)) w)
  /\ cache w' = cache w
  /\ trace w' = trace w
  /\ (clock w' (ticks w') - timestamp e < CACHE_DURATION ->
      fst (playlist q w') = Ok (send_plain (m3u e))
      /\ cache (snd (playlist q w')) = cache w
      /\ trace (snd (playlist q w')) = trace w).
Proof.
  intros Ha Hne Hr Hin Hrefresh Hget Hage.
  assert (Hrun : forall w0 : world,
             cache w0 = cache w ->
             clock w0 (ticks w0) - timestamp e < CACHE_DURATION ->
             playlist q w0
             = (Ok (send_plain (m3u e)), with_ticks (S (ticks w0)) w0)).
  { intros w0 Hc Hfresh. unfold playlist. rewrite Ha, Hr, Hrefresh.
    rewrite (truthy_Some _ Hne), (valid_region_truthy _ Hin).
    cbn [valid_region]. rewrite (proj2 (includes_In _ _) Hin).
    cbn [negb orb JS.show]. run. rewrite Hc, Hget.
    unfold fresh_hit. cbn [JS.truthy negb].
    apply Z.ltb_lt in Hfresh. now rewrite Hfresh. }
  intros w'. unfold w'. rewrite (Hrun w eq_refl Hage). cbn [snd].
  split; [reflexivity|]. split; [reflexivity|]. split; [reflexivity|].
  intros Hage'.
  rewrite (Hrun (with_ticks (S (ticks w)) w) eq_refl Hage'). repeat split.
Qed.

Lemma playlist_fresh_hit_witness :
  fst (playlist (query_of (Some "k") (Some "usa") None None) world_fresh)
  = Ok (send_plain "#EXTM3U")
  /\ trace (snd (playlist (query_of (Some "k") (Some "usa") None None)
                   world_fresh)) = []
  /\ fst (playlist (query_of (Some "k") (Some "usa") None None)
            (snd (playlist (query_of (Some "k") (Some "usa") None None)
                    world_fresh)))
     = Ok (send_plain "#EXTM3U").
Proof.
  assert (Hin : In "usa" validRegions) by (left; reflexivity).
  destruct (playlist_fresh_hit
              (query_of (Some "k") (Some "usa") None None) world_fresh
              "k" "usa" stale_entry eq_refl
              ltac:(discriminate) eq_refl Hin eq_refl eq_refl
              ltac:(reflexivity))
    as (Hrun & _ & Htrace & Hagain).
  split; [now rewrite Hrun|split; [exact Htrace|]].
  apply Hagain. reflexivity.
Defined.

Lemma m3uEntries_incomplete (results : list (option channel_doc)) :
  Forall incomplete results ->
  forall filterSports, m3uEntries_of filterSports results = ["#EXTM3U"].
Proof.
  intros H filterSports. unfold m3uEntries_of. generalize ["#EXTM3U"] as acc.
  induction H as [|r rs Hr _ IH]; intros acc; cbn [fold_left]; [reflexivity|].
  rewrite <- (IH acc). f_equal. unfold push_channel.
  destruct (first_stream_cases r) as [(mt & s & E & Hc)|[E _]].
  - exfalso. eapply complete_not_incomplete; eassumption.
  - now rewrite E.
Qed.

(** C10.  On [/playlist], for a valid request that is not served from a fresh
    entry: the handler answers 200 or 500.  When the catalog request
    succeeds, the answer is 200 with the playlist built from the channels'
    results, that playlist is stored under the key of the request, and when
    every result is absent or incomplete its text is the header [#EXTM3U]
    alone.  The answer is 500 exactly when the catalog request failed and the
    cache held no entry for the key; when it failed and an entry was held, the
    answer is 200 with the text of that entry. *)
Theorem playlist_rebuild (q : Query.t) (w : world) (apikey region : string) :
  Query.apikey q = Some apikey -> apikey <> "" ->
  Query.region q = Some region -> In region validRegions ->
  fresh_hit (Query.refresh q)
    (om_get String.eqb (apikey ++ "_" ++ region) (cache w))
    (clock w (ticks w)) = None ->
  let key := apikey ++ "_" ++ region in
  let answer :=
    catalog_upstream w (refreshing_line region false :: trace w)
      (catalog_url apikey region) in
  let w1 :=
    after [EvFetch (catalog_url apikey region); refreshing_line region false]
      (with_ticks (S (ticks w)) w) in
  exists (resp : http_response) (w' : world),
    playlist q w = (Ok resp, w')
    /\ (code resp = 200 \/ code resp = 500)
    /\ (forall catalogRes c,
          answer = Ok catalogRes -> ok catalogRes = true ->
          json catalogRes = Ok c ->
          exists results evs,
            mapM (fun ch => getChannelM3u (id ch) apikey 3) (metas c) w1
            = (Ok results, after evs w1)
            /\ resp
               = send_plain (JS.join JS.nl (m3uEntries_of false results))
            /\ om_get String.eqb key (cache w')
               = Some {| m3u := body resp;
                         timestamp := clock w (S (ticks w)) |}
            /\ (Forall incomplete results -> body resp = "#EXTM3U"))
    /\ (code resp = 500
        <-> answer_fails answer = true
            /\ om_get String.eqb key (cache w) = None)
    /\ (forall e,
          answer_fails answer = true ->
          om_get String.eqb key (cache w) = Some e ->
          resp = send_plain (m3u e)).
Proof.
  intros Ha Hne Hr Hin Hmiss key answer w1.
  set (w0 := with_ticks (S (ticks w)) w).
  assert (Hrun : playlist q w
                 = (bind (fetchAndCache apikey region false)
                      (fun _ =>
                         bind (cache_get key)
                           (fun stored =>
                              match stored with
                              | Some e => ret (send_plain (m3u e))
                              | None =>
                                  ret (send_status 500
                                         "Unable to generate playlist")
                              end))) w0).
  { unfold playlist. rewrite Ha, Hr.
    rewrite (truthy_Some _ Hne), (valid_region_truthy _ Hin).
    cbn [valid_region]. rewrite (proj2 (includes_In _ _) Hin).
    cbn [negb orb JS.show].
    unfold bind at 1, Date_now. unfold bind at 1, cache_get at 1.
    cbn [with_ticks cache]. fold key. fold key in Hmiss. now rewrite Hmiss. }
  rewrite Hrun. clear Hrun.
  destruct (answer_cases answer) as [Hf|(r & c & Hans & Hok & Hjson)].
  - destruct (fetchAndCache_failure apikey region false w0 Hf) as (evs & H).
    rewrite (bind_ok _ _ _ _ _ H). unfold bind, cache_get, ret.
    cbn [after with_trace cache w0 with_ticks].
    destruct (om_get String.eqb key (cache w)) as [e|] eqn:G.
    + exists (send_plain (m3u e)). eexists. split; [reflexivity|].
      split; [now left|]. split; [|split].
      * intros r c Hans. unfold answer_fails, attempt_answer in Hf.
        rewrite Hans in Hf. intros Hok Hjson. rewrite Hok, Hjson in Hf.
        discriminate.
      * split; [discriminate|intros [_ ?]; discriminate].
      * intros e' _ He'. congruence.
    + exists (send_status 500 "Unable to generate playlist"). eexists.
      split; [reflexivity|]. split; [now right|]. split; [|split].
      * intros r c Hans. unfold answer_fails, attempt_answer in Hf.
        rewrite Hans in Hf. intros Hok Hjson. rewrite Hok, Hjson in Hf.
        discriminate.
      * split; auto.
      * intros e' _ He'. discriminate.
  - destruct (fetchAndCache_success apikey region false w0 r c Hans Hok Hjson)
      as (results & evs & w' & Hm & _ & H & Hc).
    rewrite (bind_ok _ _ _ _ _ H). unfold bind, cache_get, ret.
    rewrite Hc. cbn [key_of]. fold key.
    rewrite string_om_get_set, String.eqb_refl.
    exists (send_plain (JS.join JS.nl (m3uEntries_of false results))), w'.
    split; [reflexivity|]. split; [now left|]. split; [|split].
    + intros r' c' Hans' _ Hjson'.
      assert (r' = r) by congruence. subst r'.
      assert (c' = c) by congruence. subst c'.
      exists results, evs. split; [exact Hm|]. split; [reflexivity|].
      split.
      * rewrite Hc. cbn [key_of]. fold key.
        rewrite string_om_get_set, String.eqb_refl. reflexivity.
      * intros Hall. cbn [body send_plain].
        now rewrite (m3uEntries_incomplete _ Hall).
    + split; [discriminate|]. intros [Hf _].
      unfold answer_fails, attempt_answer in Hf.
      rewrite Hans, Hok, Hjson in Hf. discriminate.
    + intros e Hf _. unfold answer_fails, attempt_answer in Hf.
      rewrite Hans, Hok, Hjson in Hf. discriminate.
Qed.

Lemma playlist_rebuild_witness :
  fst (playlist (query_of (Some "k") (Some "usa") None None) world_c2)
  = Ok (send_plain "#EXTM3U")
  /\ fst (playlist (query_of (Some "k") (Some "ca") None None) world_c2)
     = Ok (send_status 500 "Unable to generate playlist").
Proof.
  split.
  - assert (Hin : In "usa" validRegions) by (left; reflexivity).
    destruct (playlist_rebuild
                (query_of (Some "k") (Some "usa") None None) world_c2
                "k" "usa" eq_refl ltac:(discriminate) eq_refl Hin eq_refl)
      as (resp & w' & Hrun & _ & Hbuilt & _).
    rewrite Hrun. cbn [fst]. f_equal.
    destruct (Hbuilt _ _ eq_refl eq_refl eq_refl)
      as (results & evs & Hm & Hresp & _ & Hheader).
    assert (Hres : results = [None]).
    { vm_compute in Hm. now injection Hm as <- _. }
    subst results. rewrite Hresp. reflexivity.
  - assert (Hin : In "ca" validRegions) by (right; left; reflexivity).
    destruct (playlist_rebuild
                (query_of (Some "k") (Some "ca") None None) world_c2
                "k" "ca" eq_refl ltac:(discriminate) eq_refl Hin eq_refl)
      as (resp & w' & Hrun & Hcode & _ & H500 & _).
    rewrite Hrun. cbn [fst]. f_equal.
    assert (Hc : code resp = 500) by (apply H500; split; reflexivity).
    destruct resp as [c t b]. cbn [code] in Hc. subst c.
    vm_compute in Hrun. now injection Hrun as <- <- _.
Defined.

(** ** The [/sports-playlist] handler *)

(** C9 as stated fails on a [regions] parameter that is there and empty: its
    one token, the empty string, is dropped and no region is left, yet the
    handler goes on with [usa], answers 200 and writes the cache.  It also
    fails on an apikey that is there and empty: the answer is 400 though
    [usa] is a valid region. *)
Lemma sports_playlist_empty_regions :
  Query.apikey query_empty_regions = Some "k"
  /\ Query.regions query_empty_regions = Some ""
  /\ parse_regions "" = []
  /\ fst (sports_playlist query_empty_regions world_down)
     = Ok (send_plain "#EXTM3U")
  /\ om_keys (cache (snd (sports_playlist query_empty_regions world_down)))
     = ["k_usa"; "k_sports_usa"]
  /\ rev (schedule
            (trace (snd (sports_playlist query_empty_regions world_down))))
     = [EvFetch (catalog_url "k" "usa")]
  /\ Query.apikey query_empty_apikey = Some ""
  /\ parse_regions "usa" = ["usa"]
  /\ fst (sports_playlist query_empty_apikey world_down)
     = Ok (send_status 400 "Error: Missing apikey parameter").
Proof. repeat split. Qed.

Lemma parse_regions_In (regions r : string) :
  In r (parse_regions regions)
  <-> In r validRegions
      /\ exists token, In token (JS.split "," regions) /\ JS.trim token = r.
Proof.
  unfold parse_regions. rewrite filter_In, in_map_iff, includes_In.
  split.
  - intros [(token & Ht & Hin) Hv]. split; [exact Hv|].
    exists token. now split.
  - intros [Hv (token & Hin & Ht)]. split; [|exact Hv].
    exists token. now split.
Qed.

(** C9, amended.  For a request to [/sports-playlist] whose apikey is not
    empty: when [regions] is omitted or empty the handler goes on with the
    one region [usa]; otherwise the region list holds the tokens between
    commas, trimmed, that are valid regions, and when none is left the answer
    is 400 with the list of valid regions, without a request upstream and
    with the cache as it was; when some is left the handler goes on with that
    list. *)
Theorem sports_playlist_regions (q : Query.t) (w : world) (apikey : string) :
  Query.apikey q = Some apikey -> apikey <> "" ->
  (Query.regions q = None \/ Query.regions q = Some "" ->
   sports_playlist q w
   = serve_sports (Some apikey) (Query.refresh q) ["usa"] w)
  /\ (forall regions,
        Query.regions q = Some regions -> regions <> "" ->
        (forall r,
            In r (parse_regions regions)
            <-> In r validRegions
                /\ exists token,
                     In token (JS.split "," regions) /\ JS.trim token = r)
        /\ (parse_regions regions = [] ->
            sports_playlist q w = (Ok (send_status 400 no_valid_regions), w))
        /\ (parse_regions regions <> [] ->
            sports_playlist q w
            = serve_sports (Some apikey) (Query.refresh q)
                (parse_regions regions) w)).
Proof.
  intros Ha Hne. unfold sports_playlist. rewrite Ha, (truthy_Some _ Hne).
  cbn [negb]. split.
  - intros [H|H]; rewrite H; reflexivity.
  - intros regions Hr Hrne. rewrite Hr. unfold sports_regions.
    rewrite (truthy_Some _ Hrne). cbn [JS.show].
    split; [apply parse_regions_In|]. split.
    + intros ->. reflexivity.
    + intros H. destruct (parse_regions regions); [contradiction|reflexivity].
Qed.

Lemma sports_playlist_regions_witness :
  sports_playlist (query_of (Some "k") None None None) world_down
  = serve_sports (Some "k") None ["usa"] world_down
  /\ sports_playlist (query_of (Some "k") None (Some "de, xx") None) world_down
     = (Ok (send_status 400 no_valid_regions), world_down)
  /\ sports_playlist (query_of (Some "k") None (Some "uk , de,usa") None)
       world_down
     = serve_sports (Some "k") None ["uk"; "usa"] world_down.
Proof.
  assert (Hk : "k" <> "") by discriminate.
  split; [|split].
  - destruct (sports_playlist_regions (query_of (Some "k") None None None)
                world_down "k" eq_refl Hk) as [H _].
    apply H. now left.
  - destruct (sports_playlist_regions
                (query_of (Some "k") None (Some "de, xx") None) world_down
                "k" eq_refl Hk) as [_ H].
    assert (Hr : "de, xx" <> "") by discriminate.
    destruct (H "de, xx" eq_refl Hr) as (_ & H400 & _).
    apply H400. reflexivity.
  - destruct (sports_playlist_regions
                (query_of (Some "k") None (Some "uk , de,usa") None)
                world_down "k" eq_refl Hk) as [_ H].
    assert (Hr : "uk , de,usa" <> "") by discriminate.
    destruct (H "uk , de,usa" eq_refl Hr) as (_ & _ & Hgo).
    apply Hgo. discriminate.
Defined.

(** ** The refresh pass *)

Lemma split_free (c : ascii) (s : string) :
  free_of c s -> JS.split c s = [s].
Proof.
  unfold free_of. induction s as [|x rest IH]; simpl; intros H; [reflexivity|].
  destruct (Ascii.eqb x c) eqn:E.
  - apply Ascii.eqb_eq in E. exfalso. apply H. now left.
  - rewrite IH; [reflexivity|]. intros Hin. apply H. now right.
Qed.

Lemma split_append (c : ascii) (a rest : string) :
  free_of c a ->
  JS.split c (a ++ String c rest) = a :: JS.split c rest.
Proof.
  unfold free_of. induction a as [|x a' IH]; simpl; intros H.
  - now rewrite Ascii.eqb_refl.
  - destruct (Ascii.eqb x c) eqn:E.
    + apply Ascii.eqb_eq in E. exfalso. apply H. now left.
    + rewrite IH; [reflexivity|]. intros Hin. apply H. now right.
Qed.

(** A plain key whose apikey and region hold no underscore is parsed back to
    the apikey and the region it was made of. *)
Lemma refresh_key_plain (apikey region : string) :
  free_of "_" apikey -> free_of "_" region ->
  refresh_key (apikey ++ "_" ++ region) = fetchAndCache apikey region false.
Proof.
  intros Ha Hr. unfold refresh_key.
  change (apikey ++ "_" ++ region) with (apikey ++ String "_" region).
  rewrite (split_append _ _ _ Ha), (split_free _ _ Hr). reflexivity.
Qed.

(** C1, on the code.  After [GET /sports-playlist?apikey=k] the cache holds
    the one key [k_sports_usa], made by the multi-region sports build for
    [usa].  The refresh pass splits the key at its underscores and runs the
    plain build for apikey [k] and region [sports]: its one request upstream
    is for the catalog of [sports], none is for [usa], and the entry under
    [k_sports_usa] is not rebuilt; when the upstream answers that request, the
    pass stores a plain playlist under the new key [k_sports]. *)
Theorem refresh_misparses_sports_key :
  om_keys (cache world_after_sports) = ["k_sports_usa"]
  /\ rev (schedule (trace world_after_sports))
     = [EvFetch (catalog_url "k" "usa"); EvFetch (meta_url "k" "espn")]
  /\ JS.split "_" "k_sports_usa" = ["k"; "sports"; "usa"]
  /\ refresh_key "k_sports_usa" = fetchAndCache "k" "sports" false
  /\ rev (trace (snd (refreshPass true world_after_sports)))
     = (rev (trace world_after_sports)
        ++ [EvLog "Starting daily playlist refresh...";
            EvLog "Refreshing playlist for sports...";
            EvFetch (catalog_url "k" "sports");
            EvLog ("Error refreshing sports: Failed to fetch catalog: "
                   ++ "404 Not Found - no such document")])%list
  /\ cache (snd (refreshPass true world_after_sports))
     = cache world_after_sports
  /\ om_keys (cache (snd (refreshPass true world_after_sports')))
     = ["k_sports_usa"; "k_sports"]
  /\ om_get String.eqb "k_sports_usa"
       (cache (snd (refreshPass true world_after_sports')))
     = om_get String.eqb "k_sports_usa" (cache world_after_sports')
  /\ rev (schedule (trace (snd (refreshPass true world_after_sports'))))
     = [EvFetch (catalog_url "k" "usa"); EvFetch (meta_url "k" "espn");
        EvFetch (catalog_url "k" "sports"); EvFetch (meta_url "k" "c1")].
Proof. repeat split. Qed.

(** * Further properties of the code *)

(** ** The retry loop for any number of retries *)

Lemma requests_app (e1 e2 : list event) :
  requests (e1 ++ e2) = (requests e1 + requests e2)%nat.
Proof. unfold requests. now rewrite filter_app, length_app. Qed.

Lemma waited_app (e1 e2 : list event) :
  waited (e1 ++ e2) = waited e1 + waited e2.
Proof.
  unfold waited. induction e1 as [|e rest IH]; simpl; [reflexivity|].
  rewrite IH. destruct e; lia.
Qed.

Lemma getChannelM3u_loop_counts (channelId apikey : string) (retries : Z)
    (fuel : nat) :
  forall (attempt : Z) (w : world),
    Z.of_nat fuel = retries + 1 - attempt ->
    exists (r : option channel_doc) (evs : list event),
      getChannelM3u_loop fuel channelId apikey retries attempt w
      = (Ok r, after evs w)
      /\ (requests evs <= fuel)%nat
      /\ ((forall t,
              answer_fails (meta_upstream w t (meta_url apikey channelId))
              = true) ->
          r = None
          /\ requests evs = fuel
          /\ waited evs
             = match fuel with
               | O => 0
               | S _ =>
                   250 * (retries * (retries - 1) - attempt * (attempt - 1))
               end).
Proof.
  induction fuel as [|fuel IH]; intros attempt w Hfuel;
    cbn [getChannelM3u_loop].
  - exists None, []. unfold ret. rewrite after_nil. repeat split; auto.
  - destruct (Z.leb_spec attempt retries) as [Hle|Hgt]; [|lia].
    unfold bind. rewrite attempt_fetch_run.
    destruct (attempt_answer (meta_upstream w (trace w) _)) as [doc|message]
      eqn:A.
    + exists doc, [EvFetch (meta_url apikey channelId)].
      split; [reflexivity|].
      split; [unfold requests; cbn [filter is_fetch length]; lia|].
      intros Hfail. specialize (Hfail (trace w)).
      unfold answer_fails in Hfail. rewrite A in Hfail. discriminate.
    + match goal with
      | |- context [getChannelM3u_loop _ _ _ _ _ (after ?e w)] =>
          set (e1 := e);
          destruct (IH (attempt + 1) (after e1 w) ltac:(lia))
            as (r & evs & Hrun & Hreq & Hall)
      end.
      rewrite Hrun, after_after. exists r, (evs ++ e1)%list.
      split; [reflexivity|].
      assert (Hreq1 : requests e1 = 1%nat).
      { unfold e1. destruct (attempt <? retries); reflexivity. }
      split; [rewrite requests_app; lia|].
      intros Hfail. destruct (Hall Hfail) as (-> & Hn & Hw).
      split; [reflexivity|]. split; [rewrite requests_app; lia|].
      rewrite waited_app, Hw. unfold e1.
      destruct (Z.ltb_spec attempt retries) as [Hlt|Hge];
        destruct fuel as [|fuel']; cbn [waited fold_right app failed_line];
        lia.
Qed.

(** X1.  For any number of retries, [getChannelM3u] never raises and sends at
    most [retries] requests; with [retries <= 0] it sends none and returns
    [null].  When every attempt fails it sends exactly [retries] requests,
    returns [null], and the waits between the attempts add up to
    [250 * retries * (retries - 1)] ms. *)
Theorem getChannelM3u_bounded (channelId apikey : string) (retries : Z)
    (w : world) :
  exists (r : option channel_doc) (evs : list event),
    getChannelM3u channelId apikey retries w = (Ok r, after evs w)
    /\ (requests evs <= Z.to_nat retries)%nat
    /\ (retries <= 0 -> r = None /\ evs = [])
    /\ ((forall t,
            answer_fails (meta_upstream w t (meta_url apikey channelId))
            = true) ->
        0 < retries ->
        r = None
        /\ requests evs = Z.to_nat retries
        /\ waited evs = 250 * retries * (retries - 1)).
Proof.
  unfold getChannelM3u. destruct (Z.to_nat retries) as [|n] eqn:En.
  - exists None, []. cbn [getChannelM3u_loop]. unfold ret. rewrite after_nil.
    repeat split; auto; try lia.
  - destruct (getChannelM3u_loop_counts channelId apikey retries (S n) 1 w
                ltac:(lia))
      as (r & evs & Hrun & Hreq & Hall).
    exists r, evs. split; [exact Hrun|]. split; [exact Hreq|].
    split; [lia|].
    intros Hfail Hpos. destruct (Hall Hfail) as (-> & Hn & Hw).
    repeat split; auto. rewrite Hw. lia.
Qed.

Lemma getChannelM3u_bounded_witness :
  (exists evs,
      getChannelM3u "c2" "k" 5 world_c1_c2 = (Ok None, after evs world_c1_c2)
      /\ requests evs = 5%nat /\ waited evs = 5000)
  /\ getChannelM3u "c1" "k" 0 world_c1_c2 = (Ok None, world_c1_c2).
Proof.
  split.
  - destruct (getChannelM3u_bounded "c2" "k" 5 world_c1_c2)
      as (r & evs & Hrun & _ & _ & Hall).
    destruct Hall as (-> & Hn & Hw); [intros t; reflexivity|lia|].
    exists evs. repeat split; assumption.
  - destruct (getChannelM3u_bounded "c1" "k" 0 world_c1_c2)
      as (r & evs & Hrun & _ & Hzero & _).
    destruct Hzero as [-> ->]; [lia|]. exact Hrun.
Defined.

(** ** The genre filter only removes entries *)

Lemma m3uEntries_both (results : list (option channel_doc)) :
  exists all kept : list string,
    (forall acc,
        fold_left (push_channel false) results acc = (acc ++ all)%list)
    /\ (forall acc,
           fold_left (push_channel true) results acc = (acc ++ kept)%list)
    /\ subseq kept all
    /\ (length all <= length results)%nat.
Proof.
  induction results as [|r rs (all & kept & Hall & Hkept & Hsub & Hlen)].
  - exists [], []. repeat split; intros; simpl; rewrite ?app_nil_r; auto.
    constructor.
  - destruct (first_stream r) as [[mt s]|] eqn:E.
    + destruct (is_sports (primary_genre mt)) eqn:G.
      * exists (entry_of mt s :: all), (entry_of mt s :: kept).
        split; [|split; [|split]].
        -- intros acc. cbn [fold_left]. unfold push_channel at 2.
           rewrite E. cbn [andb]. rewrite Hall, <- app_assoc. reflexivity.
        -- intros acc. cbn [fold_left]. unfold push_channel at 2.
           rewrite E, G. cbn [andb negb]. rewrite Hkept, <- app_assoc.
           reflexivity.
        -- now constructor.
        -- simpl. lia.
      * exists (entry_of mt s :: all), kept.
        split; [|split; [|split]].
        -- intros acc. cbn [fold_left]. unfold push_channel at 2.
           rewrite E. cbn [andb]. rewrite Hall, <- app_assoc. reflexivity.
        -- intros acc. cbn [fold_left]. unfold push_channel at 2.
           rewrite E, G. cbn [andb negb]. apply Hkept.
        -- now constructor.
        -- simpl. lia.
    + exists all, kept. split; [|split; [|split]].
      * intros acc. cbn [fold_left]. unfold push_channel at 2.
        rewrite E. apply Hall.
      * intros acc. cbn [fold_left]. unfold push_channel at 2.
        rewrite E. apply Hkept.
      * exact Hsub.
      * simpl. lia.
Qed.

(** X2.  On the same catalog and world, [buildM3U] with and without the
    sports filter sends the same requests and leaves the same world; both
    texts start with the header, the entries of the filtered playlist are
    entries of the unfiltered one in the same order, and there are at most as
    many entries as channels in the catalog. *)
Theorem buildM3U_filter_subseq (c : catalog) (apikey : string) (w : world) :
  exists (all kept : list string) (evs : list event),
    buildM3U c apikey false w
    = (Ok (JS.join JS.nl ("#EXTM3U" :: all)), after evs w)
    /\ buildM3U c apikey true w
       = (Ok (JS.join JS.nl ("#EXTM3U" :: kept)), after evs w)
    /\ subseq kept all
    /\ (length all <= length (metas c))%nat.
Proof.
  destruct (mapM_getChannelM3u apikey (metas c) w)
    as (results & evs & Hm & Hlen).
  destruct (m3uEntries_both results) as (all & kept & Hall & Hkept & Hsub & Hn).
  exists all, kept, evs. unfold buildM3U.
  rewrite !(bind_ok _ _ _ _ _ Hm). unfold ret, m3uEntries_of.
  rewrite Hall, Hkept. repeat split; auto. lia.
Qed.

(** ** The order of the multi-region playlist *)

Lemma om_has_keys (k : option string) (m : list (option string * Channel.t)) :
  om_has id_eqb k m = existsb (id_eqb k) (om_keys m).
Proof.
  unfold om_has, om_keys. induction m as [|[k' v'] rest IH]; simpl;
    [reflexivity|].
  destruct (id_eqb k k'); [reflexivity|exact IH].
Qed.

Lemma om_keys_set (k : option string) (v : Channel.t)
    (m : list (option string * Channel.t)) :
  om_keys (om_set id_eqb k v m) = see (om_keys m) k.
Proof.
  unfold see, om_keys. induction m as [|[k' v'] rest IH]; simpl;
    [reflexivity|].
  destruct (id_eqb k k') eqn:E; simpl.
  - apply id_eqb_eq in E. now subst.
  - rewrite IH. now destruct (existsb (id_eqb k) (map fst rest)).
Qed.

Lemma merge_channel_keys (region : string) (r : option channel_doc)
    (m : list (option string * Channel.t)) :
  om_keys (merge_channel region m r)
  = fold_left see
      (map Channel.tvgId
         (match offer region r with
          | Some ch => [ch]
          | None => []
          end))
      (om_keys m).
Proof.
  rewrite merge_channel_offer.
  destruct (offer region r) as [ch|]; [|reflexivity].
  cbn [map fold_left].
  destruct (om_has id_eqb (Channel.tvgId ch) m) eqn:H; cbn [negb orb].
  - assert (Hsee : see (om_keys m) (Channel.tvgId ch) = om_keys m).
    { unfold see. now rewrite <- om_has_keys, H. }
    rewrite Hsee. destruct (String.eqb region preferred); [|reflexivity].
    now rewrite om_keys_set.
  - apply om_keys_set.
Qed.

Lemma merge_runs_keys (runs : list (string * list (option channel_doc))) :
  forall m,
    om_keys (merge_runs runs m)
    = fold_left see (map Channel.tvgId (offers runs)) (om_keys m).
Proof.
  unfold merge_runs, offers.
  induction runs as [|[region results] rest IH]; intros m;
    cbn [fold_left flat_map fst snd map]; [reflexivity|].
  rewrite IH, map_app, fold_left_app. f_equal. clear IH. revert m.
  induction results as [|r rs IHr]; intros m; cbn [fold_left flat_map map];
    [reflexivity|].
  now rewrite IHr, map_app, fold_left_app, merge_channel_keys.
Qed.

(** X3.  The playlist of the multi-region build lists one channel per id, in
    the order the ids are first met in the results of the regions (what
    [getChannelM3u] returned for the channels of each catalog that was had)
    as the regions are visited: an entry of [usa] that replaces an earlier
    one takes the place of the one it replaces.  Each channel is filed under
    its own [tvgId]. *)
Theorem multi_region_order (apikey : string) (regions : list string)
    (w : world) :
  exists (runs : list (string * list (option channel_doc))) (w' : world),
    visited apikey w regions runs w'
    /\ buildMultiRegionSportsM3U apikey regions w
       = (Ok (JS.join JS.nl
                ("#EXTM3U"
                 :: map channel_line (om_values (merge_runs runs [])))),
          w')
    /\ map Channel.tvgId (om_values (merge_runs runs []))
       = first_seen (map Channel.tvgId (offers runs))
    /\ om_keys (merge_runs runs [])
       = first_seen (map Channel.tvgId (offers runs)).
Proof.
  destruct (buildMultiRegionSportsM3U_visited apikey regions w)
    as (runs & w' & Hv & Hrun).
  exists runs, w'. split; [exact Hv|]. split; [exact Hrun|].
  assert (Hkeys : om_keys (merge_runs runs [])
                  = first_seen (map Channel.tvgId (offers runs)))
    by apply merge_runs_keys.
  split; [|exact Hkeys].
  rewrite <- Hkeys. unfold om_values, om_keys. rewrite map_map.
  apply map_ext_Forall.
  apply (merge_runs_own_key runs []). constructor.
Qed.

(** ** The [/sports-playlist] handler: hits and rebuilds *)

Lemma merge_region_failure (apikey region : string)
    (allChannels : list (option string * Channel.t)) (w : world) :
  answer_fails
    (catalog_upstream w (fetching_line region :: trace w)
       (catalog_url apikey region)) = true ->
  exists evs : list event,
    merge_region apikey region allChannels w = (Ok allChannels, after evs w)
    /\ schedule evs = [EvFetch (catalog_url apikey region)].
Proof.
  unfold answer_fails, attempt_answer, merge_region, fetching_line.
  run. intros H.
  destruct (catalog_upstream w _ (catalog_url apikey region))
    as [catalogRes|message].
  - destruct (ok catalogRes); run.
    + destruct (json catalogRes) as [c|message]; [discriminate|]. run.
      eexists (_ :: _ :: _ :: nil). split; reflexivity.
    + eexists (_ :: _ :: _ :: nil). split; reflexivity.
  - eexists (_ :: _ :: _ :: nil). split; reflexivity.
Qed.

Lemma merge_regions_all_fail (apikey : string) (regions : list string) :
  forall (allChannels : list (option string * Channel.t)) (w : world),
    (forall t region,
        In region regions ->
        answer_fails (catalog_upstream w t (catalog_url apikey region))
        = true) ->
    exists evs : list event,
      merge_regions apikey regions allChannels w
      = (Ok allChannels, after evs w)
      /\ schedule (rev evs)
         = map (fun region => EvFetch (catalog_url apikey region)) regions.
Proof.
  induction regions as [|region rest IH]; intros m w Hfail;
    cbn [merge_regions].
  - exists []. unfold ret. now rewrite after_nil.
  - destruct (merge_region_failure apikey region m w) as (e1 & H1 & S1).
    { apply Hfail. now left. }
    destruct (IH m (after e1 w)) as (e2 & H2 & S2).
    { intros t r Hin. apply (Hfail t r). now right. }
    exists (e2 ++ e1)%list. split.
    + now rewrite (bind_ok _ _ _ _ _ H1), H2, after_after.
    + rewrite rev_app_distr. unfold schedule in *.
      rewrite filter_app, S2, filter_rev, S1. reflexivity.
Qed.

Lemma serve_sports_miss (apikey : string) (refresh : option string)
    (regionList : list string) (w : world) :
  fresh_hit refresh
    (om_get String.eqb (sports_key apikey regionList) (cache w))
    (clock w (ticks w)) = None ->
  let w1 :=
    after [EvLog ("Generating sports playlist for regions: "
                  ++ JS.join ", " regionList)]
      (with_ticks (S (ticks w)) w) in
  exists (runs : list (string * list (option channel_doc)))
         (evs : list event),
    map fst runs = regionList
    /\ merge_regions apikey regionList [] w1
       = (Ok (merge_runs runs []), after evs w1)
    /\ serve_sports (Some apikey) refresh regionList w
       = (Ok (send_plain (render_channels (merge_runs runs []))),
          with_cache
            (om_set String.eqb (sports_key apikey regionList)
               {| m3u := render_channels (merge_runs runs []);
                  timestamp := clock w (ticks w) |}
               (cache w))
            (after evs w1)).
Proof.
  intros Hmiss w1.
  destruct (merge_regions_run apikey regionList [] w1)
    as (runs & evs & Hfst & Hrun).
  exists runs, evs. split; [exact Hfst|]. split; [exact Hrun|].
  unfold serve_sports, sports_key in *. cbn [JS.show].
  unfold bind at 1, Date_now. unfold bind at 1, cache_get at 1.
  cbn [with_ticks cache]. rewrite Hmiss.
  unfold buildMultiRegionSportsM3U. run.
  match goal with
  | |- context [merge_regions apikey regionList [] ?w0] => change w0 with w1
  end.
  rewrite Hrun. reflexivity.
Qed.

Lemma serve_sports_miss_visited (apikey : string) (refresh : option string)
    (regionList : list string) (w : world) :
  fresh_hit refresh
    (om_get String.eqb (sports_key apikey regionList) (cache w))
    (clock w (ticks w)) = None ->
  let w1 :=
    after [EvLog ("Generating sports playlist for regions: "
                  ++ JS.join ", " regionList)]
      (with_ticks (S (ticks w)) w) in
  exists (runs : list (string * list (option channel_doc))) (w2 : world),
    visited apikey w1 regionList runs w2
    /\ merge_regions apikey regionList [] w1 = (Ok (merge_runs runs []), w2)
    /\ serve_sports (Some apikey) refresh regionList w
       = (Ok (send_plain (render_channels (merge_runs runs []))),
          with_cache
            (om_set String.eqb (sports_key apikey regionList)
               {| m3u := render_channels (merge_runs runs []);
                  timestamp := clock w (ticks w) |}
               (cache w2))
            w2).
Proof.
  intros Hmiss w1.
  destruct (merge_regions_visited apikey regionList [] w1)
    as (runs & w2 & Hv & Hrun).
  exists runs, w2. split; [exact Hv|]. split; [exact Hrun|].
  unfold serve_sports, sports_key in *. cbn [JS.show].
  unfold bind at 1, Date_now. unfold bind at 1, cache_get at 1.
  cbn [with_ticks cache]. rewrite Hmiss.
  unfold buildMultiRegionSportsM3U. run.
  match goal with
  | |- context [merge_regions apikey regionList [] ?w0] => change w0 with w1
  end.
  rewrite Hrun. reflexivity.
Qed.

Lemma visited_cache (apikey : string) (w w' : world) (regions : list string)
    (runs : list (string * list (option channel_doc))) :
  visited apikey w regions runs w' -> cache w' = cache w.
Proof.
  induction 1 as [w|w w' region rest runs Hf Hv IH
                 |w w1 w' region rest runs r c results Ha Hok Hjson Hm Hv IH].
  - reflexivity.
  - rewrite IH. reflexivity.
  - rewrite IH.
    destruct (mapM_getChannelM3u apikey (metas c)
                (after [EvFetch (catalog_url apikey region);
                        fetching_line region] w)) as (rs & evs & Hm' & _).
    rewrite Hm' in Hm. injection Hm as _ <-. reflexivity.
Qed.

(** X4.  Once its parameters are accepted and no fresh entry serves the
    request, [/sports-playlist] always answers 200, never 500: it logs the
    build, visits the regions of the request in order, and sends the playlist
    of what they gave (what [getChannelM3u] returned for the channels of
    each catalog that was had), which it stores under the key of the request,
    stamped with the clock reading taken before the build.  When the catalog
    request of every region fails, that playlist is the header alone, and it
    replaces the entry the cache held. *)
Theorem sports_playlist_rebuild (q : Query.t) (w : world) (apikey : string)
    (regionList : list string) :
  Query.apikey q = Some apikey -> apikey <> "" ->
  sports_regions (Query.regions q) = inr regionList ->
  fresh_hit (Query.refresh q)
    (om_get String.eqb (sports_key apikey regionList) (cache w))
    (clock w (ticks w)) = None ->
  let w1 :=
    after [EvLog ("Generating sports playlist for regions: "
                  ++ JS.join ", " regionList)]
      (with_ticks (S (ticks w)) w) in
  exists (runs : list (string * list (option channel_doc))) (w2 : world)
         (text : string),
    visited apikey w1 regionList runs w2
    /\ text
       = JS.join JS.nl
           ("#EXTM3U" :: map channel_line (om_values (merge_runs runs [])))
    /\ sports_playlist q w
       = (Ok (send_plain text),
          with_cache
            (om_set String.eqb (sports_key apikey regionList)
               {| m3u := text; timestamp := clock w (ticks w) |} (cache w))
            w2)
    /\ ((forall t region,
            In region regionList ->
            answer_fails (catalog_upstream w t (catalog_url apikey region))
            = true) ->
        text = "#EXTM3U").
Proof.
  intros Ha Hne Hregions Hmiss w1.
  destruct (serve_sports_miss_visited apikey (Query.refresh q) regionList w
              Hmiss)
    as (runs & w2 & Hv & Hmerge & Hrun).
  exists runs, w2, (render_channels (merge_runs runs [])).
  split; [exact Hv|]. split; [apply render_channels_lines|].
  split.
  - unfold sports_playlist. rewrite Ha, (truthy_Some _ Hne), Hregions.
    cbn [negb]. rewrite Hrun. do 3 f_equal.
    exact (visited_cache _ _ _ _ _ Hv).
  - intros Hfail.
    match type of Hmerge with
    | merge_regions _ _ _ ?w1 = _ =>
        destruct (merge_regions_all_fail apikey regionList [] w1 Hfail)
          as (evs' & Hrun' & _)
    end.
    rewrite Hrun' in Hmerge. injection Hmerge as <- _. reflexivity.
Qed.

Lemma sports_playlist_rebuild_witness :
  fst (sports_playlist (query_of (Some "k") None None (Some "1"))
         world_sports_down)
  = Ok (send_plain "#EXTM3U")
  /\ om_get String.eqb "k_sports_usa"
       (cache (snd (sports_playlist (query_of (Some "k") None None (Some "1"))
                      world_sports_down)))
     = Some {| m3u := "#EXTM3U"; timestamp := 0 |}.
Proof.
  destruct (sports_playlist_rebuild
              (query_of (Some "k") None None (Some "1")) world_sports_down
              "k" ["usa"] eq_refl ltac:(discriminate) eq_refl eq_refl)
    as (runs & w2 & text & _ & _ & Hrun & Hdown).
  assert (Htext : text = "#EXTM3U").
  { apply Hdown. intros t region [<-|[]]. reflexivity. }
  subst text. rewrite Hrun. cbn [fst snd]. split; [reflexivity|].
  reflexivity.
Defined.

Lemma serve_sports_hit (apikey : string) (refresh : option string)
    (regionList : list string) (w : world) (e : entry) :
  JS.truthy refresh = false ->
  om_get String.eqb (sports_key apikey regionList) (cache w) = Some e ->
  clock w (ticks w) - timestamp e < CACHE_DURATION ->
  serve_sports (Some apikey) refresh regionList w
  = (Ok (send_plain (m3u e)), with_ticks (S (ticks w)) w).
Proof.
  intros Hrefresh Hget Hage. unfold serve_sports. cbn [JS.show].
  unfold bind at 1, Date_now. unfold bind at 1, cache_get at 1.
  cbn [with_ticks cache]. unfold sports_key in Hget. rewrite Hget.
  unfold fresh_hit. rewrite Hrefresh. cbn [negb].
  apply Z.ltb_lt in Hage. now rewrite Hage.
Qed.

Lemma sports_playlist_serve (q : Query.t) (w : world) (apikey : string)
    (regionList : list string) :
  Query.apikey q = Some apikey -> apikey <> "" ->
  sports_regions (Query.regions q) = inr regionList ->
  sports_playlist q w
  = serve_sports (Some apikey) (Query.refresh q) regionList w.
Proof.
  intros Ha Hne Hregions. unfold sports_playlist.
  now rewrite Ha, (truthy_Some _ Hne), Hregions.
Qed.

(** X5.  When the cache holds an entry under the key of a [/sports-playlist]
    request, younger than 24 hours at the reading of the clock, and the
    [refresh] parameter is missing or empty, the handler answers 200 with the
    text of the entry and does nothing else: no request upstream, no line
    logged, the cache as it was. *)
Theorem sports_playlist_fresh_hit (q : Query.t) (w : world) (apikey : string)
    (regionList : list string) (e : entry) :
  Query.apikey q = Some apikey -> apikey <> "" ->
  sports_regions (Query.regions q) = inr regionList ->
  JS.truthy (Query.refresh q) = false ->
  om_get String.eqb (sports_key apikey regionList) (cache w) = Some e ->
  clock w (ticks w) - timestamp e < CACHE_DURATION ->
  sports_playlist q w
  = (Ok (send_plain (m3u e)), with_ticks (S (ticks w)) w).
Proof.
  intros Ha Hne Hregions Hrefresh Hget Hage.
  rewrite (sports_playlist_serve q w apikey regionList Ha Hne Hregions).
  now apply serve_sports_hit.
Qed.

Lemma sports_playlist_fresh_hit_witness :
  sports_playlist (query_of (Some "k") None (Some " usa") (Some ""))
    world_sports_down
  = (Ok (send_plain (m3u old_sports_entry)),
     with_ticks 1 world_sports_down).
Proof.
  apply (sports_playlist_fresh_hit
           (query_of (Some "k") None (Some " usa") (Some ""))
           world_sports_down "k" ["usa"] old_sports_entry);
    try reflexivity.
  discriminate.
Defined.

(** ** The [/playlist] handler: forced refresh, shared keys, reading back *)

Lemma playlist_valid (q : Query.t) (w : world) (apikey region : string) :
  Query.apikey q = Some apikey -> apikey <> "" ->
  Query.region q = Some region -> In region validRegions ->
  playlist q w
  = match fresh_hit (Query.refresh q)
            (om_get String.eqb (apikey ++ "_" ++ region) (cache w))
            (clock w (ticks w)) with
    | Some e => (Ok (send_plain (m3u e)), with_ticks (S (ticks w)) w)
    | None =>
        bind (fetchAndCache apikey region false)
          (fun _ =>
             bind (cache_get (apikey ++ "_" ++ region))
               (fun stored =>
                  match stored with
                  | Some e => ret (send_plain (m3u e))
                  | None =>
                      ret (send_status 500 "Unable to generate playlist")
                  end))
          (with_ticks (S (ticks w)) w)
    end.
Proof.
  intros Ha Hne Hr Hin. unfold playlist. rewrite Ha, Hr.
  rewrite (truthy_Some _ Hne), (valid_region_truthy _ Hin).
  cbn [valid_region]. rewrite (proj2 (includes_In _ _) Hin).
  cbn [negb orb JS.show].
  unfold bind at 1, Date_now. unfold bind at 1, cache_get at 1.
  cbn [with_ticks cache].
  now destruct (fresh_hit _ _ _).
Qed.

Lemma fresh_hit_Some (refresh : option string) (e : entry) (now : Z) :
  JS.truthy refresh = false -> now - timestamp e < CACHE_DURATION ->
  fresh_hit refresh (Some e) now = Some e.
Proof.
  intros Hr Hage. unfold fresh_hit. rewrite Hr. cbn [negb].
  apply Z.ltb_lt in Hage. now rewrite Hage.
Qed.

Lemma fresh_hit_forced (refresh : option string) (hit : option entry)
    (now : Z) :
  JS.truthy refresh = true -> fresh_hit refresh hit now = None.
Proof. intros Hr. unfold fresh_hit. now rewrite Hr. Qed.

Lemma fetchAndCache_trace (apikey region : string) (sportsOnly : bool)
    (w : world) :
  exists (w' : world) (evs : list event),
    fetchAndCache apikey region sportsOnly w = (Ok tt, w')
    /\ trace w'
       = (evs ++ EvFetch (catalog_url apikey region)
              :: refreshing_line region sportsOnly :: trace w)%list.
Proof.
  destruct (answer_cases
              (catalog_upstream w (refreshing_line region sportsOnly :: trace w)
                 (catalog_url apikey region)))
    as [Hf|(r & c & Ha & Hok & Hjson)].
  - revert Hf. unfold answer_fails, attempt_answer, fetchAndCache,
      refreshing_line. run. intros H.
    destruct (catalog_upstream w _ (catalog_url apikey region))
      as [catalogRes|message].
    + destruct (ok catalogRes); run.
      * destruct (json catalogRes) as [c|message]; [discriminate|]. run.
        eexists. eexists (_ :: nil). split; reflexivity.
      * eexists. eexists (_ :: nil). split; reflexivity.
    + eexists. eexists (_ :: nil). split; reflexivity.
  - set (w1 := after [EvFetch (catalog_url apikey region);
                      refreshing_line region sportsOnly] w).
    destruct (mapM_getChannelM3u apikey (metas c) w1)
      as (results & evs & Hm & _).
    unfold fetchAndCache, refreshing_line in *. run.
    rewrite Ha, Hok. run. rewrite Hjson. unfold buildM3U. run.
    match goal with
    | |- context [mapM ?f ?l ?w0] => change w0 with w1
    end.
    rewrite Hm. cbn [after with_trace cache trace ticks clock].
    eexists. eexists (_ :: evs). split; [reflexivity|].
    cbn [trace]. unfold w1, after. cbn [trace with_trace app].
    reflexivity.
Qed.

(** X6.  A valid request to [/playlist] whose [refresh] parameter is not
    empty always rebuilds: whatever the cache holds, fresh or not, the handler
    logs the refresh and sends the catalog request of the region before it
    answers. *)
Theorem playlist_forced_refresh (q : Query.t) (w : world)
    (apikey region : string) :
  Query.apikey q = Some apikey -> apikey <> "" ->
  Query.region q = Some region -> In region validRegions ->
  JS.truthy (Query.refresh q) = true ->
  exists (resp : http_response) (w' : world) (evs : list event),
    playlist q w = (Ok resp, w')
    /\ trace w'
       = (evs ++ EvFetch (catalog_url apikey region)
              :: refreshing_line region false :: trace w)%list.
Proof.
  intros Ha Hne Hr Hin Hforce.
  rewrite (playlist_valid q w apikey region Ha Hne Hr Hin).
  rewrite (fresh_hit_forced _ _ _ Hforce).
  destruct (fetchAndCache_trace apikey region false
              (with_ticks (S (ticks w)) w)) as (w' & evs & Hrun & Htrace).
  rewrite (bind_ok _ _ _ _ _ Hrun). unfold bind, cache_get, ret.
  destruct (om_get String.eqb (apikey ++ "_" ++ region) (cache w'));
    eexists; exists w', evs; split; try reflexivity; exact Htrace.
Qed.

Lemma playlist_forced_refresh_witness :
  exists evs,
    trace (snd (playlist (query_of (Some "k") (Some "usa") None (Some "1"))
                  world_fresh))
    = (evs ++ [EvFetch (catalog_url "k" "usa"); refreshing_line "usa" false])%list.
Proof.
  assert (Hin : In "usa" validRegions) by (left; reflexivity).
  destruct (playlist_forced_refresh
              (query_of (Some "k") (Some "usa") None (Some "1")) world_fresh
              "k" "usa" eq_refl ltac:(discriminate) eq_refl Hin eq_refl)
    as (resp & w' & evs & Hrun & Htrace).
  exists evs. rewrite Hrun. exact Htrace.
Defined.

Lemma string_append_assoc (a b c : string) :
  ((a ++ b) ++ c = a ++ b ++ c)%string.
Proof. induction a as [|x a IH]; simpl; [reflexivity|now rewrite IH]. Qed.

Lemma playlist_hit (q : Query.t) (w : world) (apikey region : string)
    (e : entry) :
  Query.apikey q = Some apikey -> apikey <> "" ->
  Query.region q = Some region -> In region validRegions ->
  JS.truthy (Query.refresh q) = false ->
  om_get String.eqb (apikey ++ "_" ++ region) (cache w) = Some e ->
  clock w (ticks w) - timestamp e < CACHE_DURATION ->
  playlist q w = (Ok (send_plain (m3u e)), with_ticks (S (ticks w)) w).
Proof.
  intros Ha Hne Hr Hin Hrefresh Hget Hage.
  rewrite (playlist_valid q w apikey region Ha Hne Hr Hin), Hget.
  now rewrite (fresh_hit_Some _ _ _ Hrefresh Hage).
Qed.

(** X7.  The key of [/playlist] for the apikey [a_sports] and a region is the
    key of [/sports-playlist] for the apikey [a] and that region alone, so the
    two requests share one entry of the cache: while it is fresh, each of
    them is answered with its text, whichever build stored it. *)
Theorem playlist_shares_sports_key (q1 q2 : Query.t) (w : world)
    (apikey region : string) (e : entry) :
  In region validRegions ->
  Query.apikey q1 = Some (apikey ++ "_sports") ->
  Query.region q1 = Some region ->
  JS.truthy (Query.refresh q1) = false ->
  Query.apikey q2 = Some apikey -> apikey <> "" ->
  sports_regions (Query.regions q2) = inr [region] ->
  JS.truthy (Query.refresh q2) = false ->
  om_get String.eqb (apikey ++ "_sports_" ++ region) (cache w) = Some e ->
  clock w (ticks w) - timestamp e < CACHE_DURATION ->
  playlist q1 w = (Ok (send_plain (m3u e)), with_ticks (S (ticks w)) w)
  /\ sports_playlist q2 w
     = (Ok (send_plain (m3u e)), with_ticks (S (ticks w)) w).
Proof.
  intros Hin Ha1 Hr1 Hf1 Ha2 Hne Hregions Hf2 Hget Hage. split.
  - apply (playlist_hit q1 w (apikey ++ "_sports") region e); auto.
    + destruct apikey; discriminate.
    + rewrite string_append_assoc. exact Hget.
  - rewrite (sports_playlist_serve q2 w apikey [region] Ha2 Hne Hregions).
    now apply serve_sports_hit.
Qed.

Lemma playlist_shares_sports_key_witness :
  playlist (query_of (Some "k_sports") (Some "usa") None None)
    world_sports_down
  = (Ok (send_plain (m3u old_sports_entry)), with_ticks 1 world_sports_down)
  /\ sports_playlist (query_of (Some "k") None (Some "usa") None)
       world_sports_down
     = (Ok (send_plain (m3u old_sports_entry)),
        with_ticks 1 world_sports_down).
Proof.
  assert (Hin : In "usa" validRegions) by (left; reflexivity).
  assert (Hk : "k" <> "") by discriminate.
  assert (Hage : clock world_sports_down (ticks world_sports_down)
                 - timestamp old_sports_entry < CACHE_DURATION)
    by reflexivity.
  exact (playlist_shares_sports_key
           (query_of (Some "k_sports") (Some "usa") None None)
           (query_of (Some "k") None (Some "usa") None)
           world_sports_down "k" "usa" old_sports_entry
           Hin eq_refl eq_refl eq_refl eq_refl Hk eq_refl eq_refl eq_refl
           Hage).
Defined.

(** X8.  A rebuild is read back: when a valid request to [/playlist] without
    [refresh] finds no fresh entry and the catalog request succeeds, the
    answer is the playlist built, and the same request made again less than
    24 hours after the time stamp of the entry is answered with the same text
    from the cache, with no request upstream. *)
Theorem playlist_rebuild_then_read (q : Query.t) (w : world)
    (apikey region : string) (catalogRes : response catalog) (c : catalog) :
  Query.apikey q = Some apikey -> apikey <> "" ->
  Query.region q = Some region -> In region validRegions ->
  JS.truthy (Query.refresh q) = false ->
  fresh_hit (Query.refresh q)
    (om_get String.eqb (apikey ++ "_" ++ region) (cache w))
    (clock w (ticks w)) = None ->
  catalog_upstream w (refreshing_line region false :: trace w)
    (catalog_url apikey region) = Ok catalogRes ->
  ok catalogRes = true -> json catalogRes = Ok c ->
  exists (text : string) (w1 : world),
    playlist q w = (Ok (send_plain text), w1)
    /\ om_get String.eqb (apikey ++ "_" ++ region) (cache w1)
       = Some {| m3u := text; timestamp := clock w (S (ticks w)) |}
    /\ (clock w1 (ticks w1) - clock w (S (ticks w)) < CACHE_DURATION ->
        playlist q w1
        = (Ok (send_plain text), with_ticks (S (ticks w1)) w1)).
Proof.
  intros Ha Hne Hr Hin Hrefresh Hmiss Hans Hok Hjson.
  rewrite (playlist_valid q w apikey region Ha Hne Hr Hin), Hmiss.
  destruct (fetchAndCache_success apikey region false
              (with_ticks (S (ticks w)) w) catalogRes c Hans Hok Hjson)
    as (results & evs & w1 & _ & _ & Hrun & Hcache).
  rewrite (bind_ok _ _ _ _ _ Hrun). unfold bind, cache_get, ret.
  assert (Hget : om_get String.eqb (apikey ++ "_" ++ region) (cache w1)
                 = Some {| m3u := JS.join JS.nl (m3uEntries_of false results);
                           timestamp := clock w (S (ticks w)) |}).
  { rewrite Hcache. cbn [key_of].
    now rewrite string_om_get_set, String.eqb_refl. }
  rewrite Hget.
  exists (JS.join JS.nl (m3uEntries_of false results)), w1.
  split; [reflexivity|]. split; [exact Hget|].
  intros Hage.
  exact (playlist_hit q w1 apikey region _ Ha Hne Hr Hin Hrefresh Hget Hage).
Qed.

Lemma playlist_rebuild_then_read_witness :
  exists text w1,
    playlist (query_of (Some "k") (Some "usa") None None) world_c1_c2
    = (Ok (send_plain text), w1)
    /\ playlist (query_of (Some "k") (Some "usa") None None) w1
       = (Ok (send_plain text), with_ticks (S (ticks w1)) w1).
Proof.
  assert (Hin : In "usa" validRegions) by (left; reflexivity).
  assert (Hk : "k" <> "") by discriminate.
  destruct (playlist_rebuild_then_read
              (query_of (Some "k") (Some "usa") None None) world_c1_c2
              "k" "usa" _ _ eq_refl Hk eq_refl Hin eq_refl eq_refl eq_refl
              eq_refl eq_refl)
    as (text & w1 & Hrun & _ & Hagain).
  exists text, w1. split; [exact Hrun|]. apply Hagain.
  vm_compute in Hrun. injection Hrun as _ <-. reflexivity.
Defined.

(** ** Each handler writes its own key *)

Lemma truthy_inv (x : option string) :
  JS.truthy x = true -> exists s, x = Some s /\ s <> "".
Proof.
  destruct x as [s|]; [|discriminate]. unfold JS.truthy.
  destruct (String.eqb s "") eqn:E; [discriminate|].
  intros _. exists s. split; [reflexivity|].
  intros ->. discriminate.
Qed.

Lemma om_get_set_ne (key key' : string) (e : entry)
    (c : list (string * entry)) :
  key' <> key ->
  om_get String.eqb key' (om_set String.eqb key e c)
  = om_get String.eqb key' c.
Proof.
  intros Hne. rewrite string_om_get_set.
  destruct (String.eqb key key') eqn:E; [|reflexivity].
  apply String.eqb_eq in E. congruence.
Qed.

Lemma serve_sports_cache (apikey : string) (refresh : option string)
    (regionList : list string) (w : world) :
  exists (resp : http_response) (w' : world),
    serve_sports (Some apikey) refresh regionList w = (Ok resp, w')
    /\ (cache w' = cache w
        \/ exists e,
             cache w'
             = om_set String.eqb (sports_key apikey regionList) e (cache w)).
Proof.
  destruct (fresh_hit refresh
              (om_get String.eqb (sports_key apikey regionList) (cache w))
              (clock w (ticks w))) as [e|] eqn:H.
  - exists (send_plain (m3u e)), (with_ticks (S (ticks w)) w).
    split; [|now left].
    unfold serve_sports. cbn [JS.show].
    unfold bind at 1, Date_now. unfold bind at 1, cache_get at 1.
    cbn [with_ticks cache]. unfold sports_key in H. now rewrite H.
  - destruct (serve_sports_miss apikey refresh regionList w H)
      as (runs & evs & _ & _ & Hrun).
    do 2 eexists. split; [exact Hrun|]. right. eexists. reflexivity.
Qed.

(** X9.  A request changes no entry of the cache but the one under its own
    key: after [/playlist] every other key reads as before, and so after
    [/sports-playlist]; a request that is refused changes nothing. *)
Theorem handlers_write_own_key (q : Query.t) (w : world) (key : string) :
  (key <> JS.show (Query.apikey q) ++ "_" ++ JS.show (Query.region q) ->
   om_get String.eqb key (cache (snd (playlist q w)))
   = om_get String.eqb key (cache w))
  /\ ((forall regionList,
          sports_regions (Query.regions q) = inr regionList ->
          key <> sports_key (JS.show (Query.apikey q)) regionList) ->
      om_get String.eqb key (cache (snd (sports_playlist q w)))
      = om_get String.eqb key (cache w)).
Proof.
  split.
  - intros Hkey.
    destruct (JS.truthy (Query.apikey q)) eqn:Ta;
      [|unfold playlist; rewrite Ta; reflexivity].
    destruct (JS.truthy (Query.region q)) eqn:Tr;
      [|unfold playlist; rewrite Ta, Tr; reflexivity].
    destruct (valid_region (Query.region q)) eqn:Tv;
      [|unfold playlist; rewrite Ta, Tr, Tv; reflexivity].
    destruct (truthy_inv _ Ta) as (apikey & Ha & Hne).
    destruct (truthy_inv _ Tr) as (region & Hr & _).
    rewrite Hr in Tv. cbn [valid_region] in Tv. apply includes_In in Tv.
    rewrite Ha, Hr in Hkey. cbn [JS.show] in Hkey.
    rewrite (playlist_valid q w apikey region Ha Hne Hr Tv).
    destruct (fresh_hit _ _ _); [reflexivity|].
    destruct (fetchAndCache_cases apikey region false
                (with_ticks (S (ticks w)) w)) as (w' & Hrun & Hc).
    rewrite (bind_ok _ _ _ _ _ Hrun). unfold bind, cache_get, ret.
    assert (Hsame : om_get String.eqb key (cache w')
                    = om_get String.eqb key (cache w)).
    { destruct Hc as [Hc|[e Hc]]; rewrite Hc; [reflexivity|].
      cbn [key_of with_ticks cache]. now apply om_get_set_ne. }
    now destruct (om_get String.eqb (apikey ++ "_" ++ region) (cache w')).
  - intros Hkey. unfold sports_playlist.
    destruct (JS.truthy (Query.apikey q)) eqn:Ta; [|reflexivity].
    destruct (truthy_inv _ Ta) as (apikey & Ha & Hne).
    cbn [negb]. destruct (sports_regions (Query.regions q))
      as [bad|regionList] eqn:Hregions; [reflexivity|].
    specialize (Hkey regionList eq_refl). rewrite Ha in *.
    cbn [JS.show] in Hkey.
    destruct (serve_sports_cache apikey (Query.refresh q) regionList w)
      as (resp & w' & Hrun & Hc).
    rewrite Hrun. cbn [snd].
    destruct Hc as [Hc|[e Hc]]; rewrite Hc; [reflexivity|].
    now apply om_get_set_ne.
Qed.

Lemma handlers_write_own_key_witness :
  om_get String.eqb "k_usa"
    (cache (snd (playlist (query_of (Some "k") (Some "ca") None (Some "1"))
                   world_fresh)))
  = Some stale_entry
  /\ om_get String.eqb "k_usa"
       (cache (snd (sports_playlist (query_of (Some "k") None None None)
                      world_fresh)))
     = Some stale_entry.
Proof.
  split.
  - destruct (handlers_write_own_key
                (query_of (Some "k") (Some "ca") None (Some "1"))
                world_fresh "k_usa") as [H _].
    rewrite H; [reflexivity|discriminate].
  - destruct (handlers_write_own_key
                (query_of (Some "k") None None None) world_fresh "k_usa")
      as [_ H].
    rewrite H; [reflexivity|].
    intros regionList Hr. injection Hr as <-. discriminate.
Defined.

(** ** The refresh pass and the shape of the keys *)

Lemma split_nonempty (c : ascii) (s : string) : JS.split c s <> [].
Proof.
  destruct s as [|x rest]; simpl; [discriminate|].
  destruct (Ascii.eqb x c); [discriminate|].
  destruct (JS.split c rest); discriminate.
Qed.

Lemma refresh_key_segments (apikey rest : string) :
  free_of "_" apikey ->
  refresh_key (apikey ++ "_" ++ rest)
  = fetchAndCache apikey (hd "" (JS.split "_" rest)) false.
Proof.
  intros Ha. unfold refresh_key.
  change (apikey ++ "_" ++ rest) with (apikey ++ String "_" rest).
  rewrite (split_append _ _ _ Ha). cbn [nth_error JS.show].
  pose proof (split_nonempty "_" rest) as Hne.
  destruct (JS.split "_" rest); [contradiction|reflexivity].
Qed.

Lemma append_inj_l (a s1 s2 : string) : a ++ s1 = a ++ s2 -> s1 = s2.
Proof.
  induction a as [|x a IH]; simpl; intros H; [exact H|].
  injection H as H. now apply IH.
Qed.

Lemma forM_refresh_plain (pairs : list (string * string)) :
  Forall (fun p => free_of "_" (fst p) /\ free_of "_" (snd p)) pairs ->
  forM_ refresh_key (map plain_key pairs)
  = forM_ (fun p => fetchAndCache (fst p) (snd p) false) pairs.
Proof.
  induction 1 as [|[a r] rest [Ha Hr] _ IH]; cbn [map forM_];
    [reflexivity|].
  unfold plain_key at 1. cbn [fst snd].
  now rewrite (refresh_key_plain a r Ha Hr), IH.
Qed.

(** X10.  Keys are read back when they are plain: if every key of the cache
    is [apikey_region] for an apikey and a region without underscore, the
    refresh pass runs, in the order of the keys, the build of each entry with
    the apikey and the region it was stored for. *)
Theorem refresh_pass_plain_keys (pairs : list (string * string))
    (first : bool) (w : world) :
  Forall (fun p => free_of "_" (fst p) /\ free_of "_" (snd p)) pairs ->
  om_keys (cache w) = map plain_key pairs ->
  refreshPass first w
  = bind (log (if first then "Starting daily playlist refresh..."
               else "Running daily playlist refresh..."))
      (fun _ => forM_ (fun p => fetchAndCache (fst p) (snd p) false) pairs)
      w.
Proof.
  intros Hfree Hkeys. unfold refreshPass.
  unfold bind at 1 3, log. unfold bind at 1. cbn [with_trace cache].
  now rewrite Hkeys, (forM_refresh_plain pairs Hfree).
Qed.

Lemma refresh_pass_plain_keys_witness :
  refreshPass true world_fresh
  = bind (log "Starting daily playlist refresh...")
      (fun _ => forM_ (fun p => fetchAndCache (fst p) (snd p) false)
                  [("k", "usa")])
      world_fresh.
Proof.
  apply (refresh_pass_plain_keys [("k", "usa")] true world_fresh);
    [|reflexivity].
  constructor; [|constructor].
  split; intros H; simpl in H;
    repeat (destruct H as [H|H]; [discriminate|]); exact H.
Defined.

(** X11.  A key with more than two fields is not read back.  For an apikey
    without underscore, the refresh of a key [apikey_rest] runs the plain
    build for the region named by the first field of [rest]; so the refresh
    of the key of [/sports-playlist] for any region list runs the plain build
    for a region named [sports], and whatever the upstream answers the entry
    under the sports key is left as it was. *)
Theorem refresh_key_sports (apikey : string) :
  free_of "_" apikey ->
  (forall rest,
      refresh_key (apikey ++ "_" ++ rest)
      = fetchAndCache apikey (hd "" (JS.split "_" rest)) false)
  /\ (forall (regionList : list string) (w : world),
        refresh_key (sports_key apikey regionList) w
        = fetchAndCache apikey "sports" false w
        /\ om_get String.eqb (sports_key apikey regionList)
             (cache (snd (refresh_key (sports_key apikey regionList) w)))
           = om_get String.eqb (sports_key apikey regionList) (cache w)).
Proof.
  intros Ha. split; [intros rest; now apply refresh_key_segments|].
  intros regionList w.
  assert (Hkey : refresh_key (sports_key apikey regionList)
                 = fetchAndCache apikey "sports" false).
  { unfold sports_key.
    change (apikey ++ "_sports_" ++ JS.join "_" regionList)
      with (apikey ++ "_" ++ ("sports" ++ String "_" (JS.join "_" regionList))).
    rewrite (refresh_key_segments _ _ Ha), split_append; [reflexivity|].
    intros H. simpl in H.
    repeat (destruct H as [H|H]; [discriminate|]). exact H. }
  rewrite Hkey. split; [reflexivity|].
  destruct (fetchAndCache_cases apikey "sports" false w)
    as (w' & Hrun & [Hc|[e Hc]]); rewrite Hrun; cbn [snd]; rewrite Hc;
    [reflexivity|].
  apply om_get_set_ne. unfold sports_key, key_of. intros H.
  apply append_inj_l in H. discriminate.
Qed.

Lemma refresh_key_sports_witness :
  refresh_key "k_sports_usa_uk" world_after_sports
  = fetchAndCache "k" "sports" false world_after_sports.
Proof.
  assert (Hk : free_of "_" "k").
  { intros H. simpl in H. destruct H as [H|H]; [discriminate|exact H]. }
  destruct (refresh_key_sports "k" Hk) as [_ H].
  exact (proj1 (H ["usa"; "uk"] world_after_sports)).
Defined.

(** ** Region lists are read back *)

Lemma valid_region_plain (r : string) :
  In r validRegions -> free_of "," r /\ JS.trim r = r /\ r <> "".
Proof.
  unfold validRegions. intros H. simpl in H.
  repeat (destruct H as [<-|H];
          [split; [|split; [reflexivity|discriminate]];
           intros H; simpl in H;
           repeat (destruct H as [H|H]; [discriminate|]); exact H|]).
  contradiction.
Qed.

Lemma split_join (c : ascii) (l : list string) :
  Forall (free_of c) l -> l <> [] ->
  JS.split c (JS.join (String c "") l) = l.
Proof.
  unfold JS.join. induction 1 as [|x rest Hx Hrest IH]; intros Hne;
    [contradiction|].
  destruct rest as [|y rest'].
  - simpl. now apply split_free.
  - change (String.concat (String c "") (x :: y :: rest'))
      with (x ++ String c (String.concat (String c "") (y :: rest'))).
    rewrite (split_append _ _ _ Hx), IH; [reflexivity|discriminate].
Qed.

Lemma join_nonempty (sep : string) (l : list string) :
  Forall (fun r => r <> "") l -> l <> [] -> JS.join sep l <> "".
Proof.
  unfold JS.join. intros H Hne. destruct H as [|x rest Hx _]; [contradiction|].
  destruct x as [|a x']; [contradiction|].
  destruct rest; simpl; discriminate.
Qed.

(** X12.  A list of valid regions written with commas is read back as it is,
    order and repetitions kept, and [/sports-playlist] goes on with that
    list when it is not empty. *)
Theorem parse_regions_join (l : list string) :
  Forall (fun r => In r validRegions) l ->
  parse_regions (JS.join "," l) = l
  /\ (l <> [] -> sports_regions (Some (JS.join "," l)) = inr l).
Proof.
  intros Hvalid.
  assert (Hparse : parse_regions (JS.join "," l) = l).
  { destruct l as [|x rest]; [reflexivity|].
    unfold parse_regions. rewrite split_join; [|
      eapply Forall_impl; [|exact Hvalid];
      intros r Hr; exact (proj1 (valid_region_plain r Hr)) | discriminate].
    assert (Htrim : map JS.trim (x :: rest) = x :: rest).
    { rewrite <- (map_id (x :: rest)) at 2. apply map_ext_Forall.
      eapply Forall_impl; [|exact Hvalid].
      intros r Hr. exact (proj1 (proj2 (valid_region_plain r Hr))). }
    rewrite Htrim. apply forallb_filter_id. apply forallb_forall.
    intros r Hr. apply includes_In.
    exact (proj1 (Forall_forall _ _) Hvalid r Hr). }
  split; [exact Hparse|].
  intros Hne. unfold sports_regions.
  rewrite truthy_Some.
  - cbn [JS.show]. rewrite Hparse.
    destruct l; [contradiction|reflexivity].
  - apply join_nonempty; [|exact Hne].
    eapply Forall_impl; [|exact Hvalid].
    intros r Hr. exact (proj2 (proj2 (valid_region_plain r Hr))).
Qed.

Lemma parse_regions_join_witness :
  parse_regions "uk,usa,uk" = ["uk"; "usa"; "uk"]
  /\ sports_regions (Some "uk,usa,uk") = inr ["uk"; "usa"; "uk"].
Proof.
  assert (Hv : Forall (fun r => In r validRegions) ["uk"; "usa"; "uk"]).
  { repeat constructor; unfold validRegions; simpl; tauto. }
  destruct (parse_regions_join ["uk"; "usa"; "uk"] Hv) as [Hp Hs].
  split; [exact Hp|]. apply Hs. discriminate.
Defined.

(** ** The two revisions of the server *)

Lemma legacy_push_channel (results : list (option channel_doc)) :
  forall acc,
    fold_left Legacy.push_channel results acc
    = fold_left (push_channel false) results acc.
Proof.
  induction results as [|r rs IH]; intros acc; cbn [fold_left];
    [reflexivity|].
  rewrite IH. reflexivity.
Qed.

Lemma legacy_buildM3U (c : catalog) (apikey : string) (w : world) :
  Legacy.buildM3U c apikey w = buildM3U c apikey false w.
Proof.
  unfold Legacy.buildM3U, buildM3U, bind.
  destruct (mapM _ (metas c) w) as [[results|message] w']; [|reflexivity].
  unfold ret, m3uEntries_of. now rewrite legacy_push_channel.
Qed.

Lemma legacy_fetchAndCache (apikey region : string) (w : world) :
  exists w1 w2 : world,
    Legacy.fetchAndCache apikey region w = (Ok tt, w1)
    /\ fetchAndCache apikey region false w = (Ok tt, w2)
    /\ same_but_log w1 w2.
Proof.
  unfold Legacy.fetchAndCache, fetchAndCache, refreshing_line, same_but_log.
  cbn [sports_suffix]. run.
  change (region ++ "" ++ "...") with (region ++ "...").
  destruct (catalog_upstream w _ (catalog_url apikey region))
    as [catalogRes|message].
  - destruct (ok catalogRes) eqn:Hok; run.
    + destruct (json catalogRes) as [c|message]; run.
      * rewrite legacy_buildM3U.
        destruct (buildM3U c apikey false _) as [[text|message] w'];
          do 2 eexists; repeat split.
      * do 2 eexists. repeat split.
    + do 2 eexists. repeat split.
  - do 2 eexists. repeat split.
Qed.

Lemma playlist_accepted (q : Query.t) (w : world) :
  negb (JS.truthy (Query.apikey q)) || negb (JS.truthy (Query.region q))
  || negb (valid_region (Query.region q)) = false ->
  let key := JS.show (Query.apikey q) ++ "_" ++ JS.show (Query.region q) in
  playlist q w
  = match fresh_hit (Query.refresh q) (om_get String.eqb key (cache w))
            (clock w (ticks w)) with
    | Some e => (Ok (send_plain (m3u e)), with_ticks (S (ticks w)) w)
    | None =>
        bind (fetchAndCache (JS.show (Query.apikey q))
                (JS.show (Query.region q)) false)
          (fun _ =>
             bind (cache_get key)
               (fun stored =>
                  match stored with
                  | Some e => ret (send_plain (m3u e))
                  | None =>
                      ret (send_status 500 "Unable to generate playlist")
                  end))
          (with_ticks (S (ticks w)) w)
    end.
Proof.
  intros Hcond key. unfold playlist. rewrite Hcond.
  unfold bind at 1, Date_now. unfold bind at 1, cache_get at 1.
  cbn [with_ticks cache]. fold key.
  now destruct (fresh_hit _ _ _).
Qed.

Lemma legacy_playlist_accepted (q : Query.t) (w : world) :
  negb (JS.truthy (Query.apikey q)) || negb (JS.truthy (Query.region q))
  || negb (valid_region (Query.region q)) = false ->
  let key := JS.show (Query.apikey q) ++ "_" ++ JS.show (Query.region q) in
  Legacy.playlist q w
  = match fresh_hit (Query.refresh q) (om_get String.eqb key (cache w))
            (clock w (ticks w)) with
    | Some e => (Ok (send_plain (m3u e)), with_ticks (S (ticks w)) w)
    | None =>
        bind (Legacy.fetchAndCache (JS.show (Query.apikey q))
                (JS.show (Query.region q)))
          (fun _ =>
             bind (cache_get key)
               (fun stored =>
                  match stored with
                  | Some e => ret (send_plain (m3u e))
                  | None =>
                      ret (send_status 500 "Unable to generate playlist")
                  end))
          (with_ticks (S (ticks w)) w)
    end.
Proof.
  intros Hcond key. unfold Legacy.playlist. rewrite Hcond.
  unfold bind at 1, Date_now. unfold bind at 1, cache_get at 1.
  cbn [with_ticks cache]. fold key.
  now destruct (fresh_hit _ _ _).
Qed.

(** X13.  The earlier revision of the server answers [/playlist] as the
    current one does: on every request and world the two handlers send the
    same response, send the same requests upstream with the same waits, read
    the clock as often and leave the same cache; the worlds they leave
    differ at most by the lines logged. *)
Theorem legacy_playlist_agrees (q : Query.t) (w : world) :
  fst (Legacy.playlist q w) = fst (playlist q w)
  /\ same_but_log (snd (Legacy.playlist q w)) (snd (playlist q w)).
Proof.
  destruct (negb (JS.truthy (Query.apikey q))
            || negb (JS.truthy (Query.region q))
            || negb (valid_region (Query.region q))) eqn:Hcond.
  - unfold Legacy.playlist, playlist. rewrite Hcond.
    split; [reflexivity|repeat split].
  - rewrite (legacy_playlist_accepted q w Hcond),
      (playlist_accepted q w Hcond).
    destruct (fresh_hit _ _ _); [split; [reflexivity|repeat split]|].
    destruct (legacy_fetchAndCache (JS.show (Query.apikey q))
                (JS.show (Query.region q)) (with_ticks (S (ticks w)) w))
      as (w1 & w2 & H1 & H2 & Hc & Ht & Hs).
    rewrite (bind_ok _ _ _ _ _ H1), (bind_ok _ _ _ _ _ H2).
    unfold bind, cache_get, ret. rewrite Hc.
    destruct (om_get String.eqb _ (cache w2));
      (split; [reflexivity|repeat split; assumption]).
Qed.

(** ** Regions that fail, keys that stay *)



Lemma holds_key_set (key key' : string) (e : entry)
    (c : list (string * entry)) :
  (exists e0, om_get String.eqb key c = Some e0) ->
  exists e1, om_get String.eqb key (om_set String.eqb key' e c) = Some e1.
Proof.
  intros [e0 H]. rewrite string_om_get_set.
  destruct (String.eqb key' key); eauto.
Qed.

(** X15.  No request removes a key: a key the cache holds before a request to
    [/playlist] or to [/sports-playlist] is held after it, whatever the
    request and whatever the upstream answers. *)
Theorem handlers_keep_keys (q : Query.t) (w : world) (key : string) :
  holds_key key w ->
  holds_key key (snd (playlist q w))
  /\ holds_key key (snd (sports_playlist q w)).
Proof.
  intros Hheld. split.
  - destruct (negb (JS.truthy (Query.apikey q))
              || negb (JS.truthy (Query.region q))
              || negb (valid_region (Query.region q))) eqn:Hcond.
    + unfold playlist. now rewrite Hcond.
    + rewrite (playlist_accepted q w Hcond).
      destruct (fresh_hit _ _ _); [exact Hheld|].
      pose proof (fetchAndCache_holds (JS.show (Query.apikey q))
                    (JS.show (Query.region q)) false
                    (with_ticks (S (ticks w)) w) key Hheld) as H.
      destruct (fetchAndCache_cases (JS.show (Query.apikey q))
                  (JS.show (Query.region q)) false
                  (with_ticks (S (ticks w)) w)) as (w' & Hrun & _).
      rewrite Hrun in H. rewrite (bind_ok _ _ _ _ _ Hrun).
      unfold bind, cache_get, ret.
      now destruct (om_get String.eqb _ (cache w')).
  - unfold sports_playlist.
    destruct (JS.truthy (Query.apikey q)) eqn:Ta; [|exact Hheld].
    destruct (truthy_inv _ Ta) as (apikey & Ha & _). rewrite Ha.
    cbn [negb]. destruct (sports_regions (Query.regions q))
      as [bad|regionList]; [exact Hheld|].
    destruct (serve_sports_cache apikey (Query.refresh q) regionList w)
      as (resp & w' & Hrun & Hc).
    rewrite Hrun. cbn [snd]. unfold holds_key in *.
    destruct Hc as [Hc|[e Hc]]; rewrite Hc; [exact Hheld|].
    now apply holds_key_set.
Qed.

Lemma handlers_keep_keys_witness :
  holds_key "k_usa"
    (snd (playlist (query_of (Some "k") (Some "usa") None (Some "1"))
            world_fresh))
  /\ holds_key "k_usa"
       (snd (sports_playlist (query_of (Some "k") None None None)
               world_fresh)).
Proof.
  assert (Hheld : holds_key "k_usa" world_fresh)
    by (exists stale_entry; reflexivity).
  split.
  - exact (proj1 (handlers_keep_keys
                    (query_of (Some "k") (Some "usa") None (Some "1"))
                    world_fresh "k_usa" Hheld)).
  - exact (proj2 (handlers_keep_keys (query_of (Some "k") None None None)
                    world_fresh "k_usa" Hheld)).
Defined.
